(** * Confidential Transmission: ledger contract and content cipher

    A shallow embedding of the [ConfidentialTransmission] Solidity contract
    (message store, per-address indices, soft delete) and of the browser-side
    AES content cipher wrappers ([encryptFileWithAES], [decryptFileContent]),
    together with the properties the system description states about them. *)

From Stdlib Require Import ZArith String Ascii List Lia Bool.
From stdpp Require Import base option list gmap.

Local Open Scope Z_scope.

(** ** The ledger contract *)

Module Ledger.

(** [address] is a 160-bit value and [uint256] a 256-bit one; both are
    carried as [Z].  Handles of the protection runtime ([eaddress],
    [euint256], and their external forms) are [bytes32] values. *)
Abbreviation address := Z (only parsing).
Abbreviation uint256 := Z (only parsing).
Abbreviation handle := Z (only parsing).
Abbreviation bytes := (list Byte.byte) (only parsing).

Definition max_uint256 : Z := 2 ^ 256 - 1.
Definition zero_address : address := 0.

(** struct Message *)
Record Message := mkMessage {
  encryptedSender : handle;
  recipient : address;
  contentCID : string;
  encryptedKey : handle;
  timestamp : uint256;
  isDeleted : bool
}.

(** A mapping slot that was never written reads as the all-zero record. *)
Definition zeroMessage : Message :=
  mkMessage 0 zero_address EmptyString 0 0 false.

#[export] Instance Message_inhabited : Inhabited Message := populate zeroMessage.

Inductive Event :=
| MessageSent (messageId : uint256) (recipient sender : address)
              (contentCID : string) (timestamp : uint256)
| MessageRead (messageId : uint256) (reader : address)
| MessageDeleted (messageId : uint256) (deleter : address).

(** Contract storage, the access-control list of the protection runtime
    (pairs of a handle and an address allowed to decrypt it) and the log. *)
Record State := mkState {
  messages : gmap Z Message;
  receivedMessages : gmap Z (list Z);
  sentMessages : gmap Z (list Z);
  messageCount : uint256;
  acl : list (handle * address);
  events : list Event
}.

(** Storage right after deployment. *)
Definition init : State := mkState ∅ ∅ ∅ 0 [] [].

Definition set_messages (f : gmap Z Message → gmap Z Message) (s : State) : State :=
  mkState (f (messages s)) (receivedMessages s) (sentMessages s)
          (messageCount s) (acl s) (events s).
Definition set_receivedMessages (f : gmap Z (list Z) → gmap Z (list Z)) (s : State) : State :=
  mkState (messages s) (f (receivedMessages s)) (sentMessages s)
          (messageCount s) (acl s) (events s).
Definition set_sentMessages (f : gmap Z (list Z) → gmap Z (list Z)) (s : State) : State :=
  mkState (messages s) (receivedMessages s) (f (sentMessages s))
          (messageCount s) (acl s) (events s).
Definition set_messageCount (n : uint256) (s : State) : State :=
  mkState (messages s) (receivedMessages s) (sentMessages s)
          n (acl s) (events s).
Definition set_acl (f : list (handle * address) → list (handle * address)) (s : State) : State :=
  mkState (messages s) (receivedMessages s) (sentMessages s)
          (messageCount s) (f (acl s)) (events s).
Definition set_events (f : list Event → list Event) (s : State) : State :=
  mkState (messages s) (receivedMessages s) (sentMessages s)
          (messageCount s) (acl s) (f (events s)).

(** What a call sees of its transaction. *)
Record Env := mkEnv {
  msg_sender : address;
  block_timestamp : uint256
}.

(** *** Failures *)

(** [Revert] carries the reason string of a failed [require]; [Panic] is the
    checked-arithmetic failure of Solidity 0.8; [RuntimeRevert] is a revert
    raised inside the protection runtime when it rejects an input proof. *)
Inductive Failure :=
| Revert (reason : string)
| Panic (code : Z)
| RuntimeRevert.

(** The error kinds of the system description. *)
Inductive ErrorKind :=
| ValidationError
| AuthorizationError
| StateError
| ProofVerificationError.

Definition classify (f : Failure) : option ErrorKind :=
  match f with
  | Revert r =>
      if (r =? "Invalid recipient")%string then Some ValidationError
      else if (r =? "Empty content CID")%string then Some ValidationError
      else if (r =? "Not authorized")%string then Some AuthorizationError
      else if (r =? "Message deleted")%string then Some StateError
      else if (r =? "Already deleted")%string then Some StateError
      else None
  | Panic _ => None
  | RuntimeRevert => Some ProofVerificationError
  end.

(** *** A state-and-failure monad

    A computation returns its outcome together with the storage as it stands
    at the point of return or of failure; [transact] below discards the
    latter on failure, as the EVM does. *)
Inductive outcome (A : Type) :=
| Ok (a : A)
| Fail (f : Failure).
Arguments Ok {A} a.
Arguments Fail {A} f.

Definition M (A : Type) : Type := State → outcome A * State.

Definition ret {A} (a : A) : M A := λ s, (Ok a, s).
Definition bind {A B} (m : M A) (k : A → M B) : M B :=
  λ s, match m s with
       | (Ok a, s') => k a s'
       | (Fail f, s') => (Fail f, s')
       end.
Definition fail {A} (f : Failure) : M A := λ s, (Fail f, s).
Definition gets {A} (f : State → A) : M A := λ s, (Ok (f s), s).
Definition modify (f : State → State) : M unit := λ s, (Ok tt, f s).

Notation "x <~ m ;; k" := (bind m (λ x, k))
  (at level 100, m at next level, right associativity).
Notation "m ;;; k" := (bind m (λ _, k))
  (at level 100, right associativity).

Definition require (b : bool) (reason : string) : M unit :=
  if b then ret tt else fail (Revert reason).

Definition emit (e : Event) : M unit :=
  modify (set_events (λ l, l ++ [e])).

Definition is_ok {A} (o : outcome A) : bool :=
  match o with Ok _ => true | Fail _ => false end.

Definition failure_kind {A} (o : outcome A) : option ErrorKind :=
  match o with Ok _ => None | Fail f => classify f end.

(** *** The contract's functions *)

(** The protection runtime, consumed through its interface:
    [FHE.fromExternal] at its two types checks an external handle against its
    proof and yields the internal handle, or reverts; [this] is the
    contract's own address. *)
Class Runtime := {
  fromExternal_eaddress : Env → handle → bytes → option handle;
  fromExternal_euint256 : Env → handle → bytes → option handle;
  this : address
}.

Section Contract.

Context {rt : Runtime}.

Definition fromExternal (v : option handle) : M handle :=
  match v with
  | Some h => ret h
  | None => fail RuntimeRevert
  end.

Definition allow (h : handle) (a : address) : M unit :=
  modify (set_acl (λ l, l ++ [(h, a)])).
Definition allowThis (h : handle) : M unit := allow h this.

(** [messageCount++] under checked arithmetic. *)
Definition increment_messageCount : M unit :=
  n <~ gets messageCount ;;
  if n <? max_uint256 then modify (set_messageCount (n + 1))
  else fail (Panic 17).

Definition sendMessage (env : Env) (_recipient : address) (_contentCID : string)
    (_encryptedSender : handle) (_senderProof : bytes)
    (_encryptedKey : handle) (_keyProof : bytes) : M uint256 :=
  require (negb (_recipient =? zero_address)) "Invalid recipient" ;;;
  require (0 <? String.length _contentCID)%nat "Empty content CID" ;;;
  sender <~ fromExternal (fromExternal_eaddress env _encryptedSender _senderProof) ;;
  key <~ fromExternal (fromExternal_euint256 env _encryptedKey _keyProof) ;;
  allow sender _recipient ;;;
  allow key _recipient ;;;
  allowThis sender ;;;
  allowThis key ;;;
  n <~ gets messageCount ;;
  modify (set_messages
            <[ n := {| encryptedSender := sender;
                       recipient := _recipient;
                       contentCID := _contentCID;
                       encryptedKey := key;
                       timestamp := block_timestamp env;
                       isDeleted := false |} ]>) ;;;
  n <~ gets messageCount ;;
  modify (set_receivedMessages
            (λ r, <[ _recipient := (r !!! _recipient) ++ [n] ]> r)) ;;;
  n <~ gets messageCount ;;
  modify (set_sentMessages
            (λ r, <[ msg_sender env := (r !!! msg_sender env) ++ [n] ]> r)) ;;;
  n <~ gets messageCount ;;
  emit (MessageSent n _recipient (msg_sender env) _contentCID
                    (block_timestamp env)) ;;;
  messageId <~ gets messageCount ;;
  increment_messageCount ;;;
  ret messageId.

Definition getMessage (env : Env) (_messageId : uint256)
    : M (handle * string * handle * uint256) :=
  message <~ gets (λ s, messages s !!! _messageId) ;;
  require (negb (isDeleted message)) "Message deleted" ;;;
  require (recipient message =? msg_sender env) "Not authorized" ;;;
  ret (encryptedSender message, contentCID message,
       encryptedKey message, timestamp message).

Definition getMessageMetadata (env : Env) (_messageId : uint256)
    : M (address * string * uint256 * bool) :=
  message <~ gets (λ s, messages s !!! _messageId) ;;
  ret (recipient message, contentCID message,
       timestamp message, isDeleted message).

Definition getMyReceivedMessages (env : Env) : M (list uint256) :=
  gets (λ s, receivedMessages s !!! msg_sender env).

Definition getMySentMessages (env : Env) : M (list uint256) :=
  gets (λ s, sentMessages s !!! msg_sender env).

Definition getReceivedMessagesOf (env : Env) (_recipient : address)
    : M (list uint256) :=
  gets (λ s, receivedMessages s !!! _recipient).

Definition deleteMessage (env : Env) (_messageId : uint256) : M unit :=
  message <~ gets (λ s, messages s !!! _messageId) ;;
  require (recipient message =? msg_sender env) "Not authorized" ;;;
  require (negb (isDeleted message)) "Already deleted" ;;;
  modify (set_messages
            (λ m, <[ _messageId :=
                       {| encryptedSender := encryptedSender (m !!! _messageId);
                          recipient := recipient (m !!! _messageId);
                          contentCID := contentCID (m !!! _messageId);
                          encryptedKey := encryptedKey (m !!! _messageId);
                          timestamp := timestamp (m !!! _messageId);
                          isDeleted := true |} ]> m)) ;;;
  emit (MessageDeleted _messageId (msg_sender env)).

Definition isRecipient (env : Env) (_messageId : uint256) : M bool :=
  gets (λ s, recipient (messages s !!! _messageId) =? msg_sender env).

Definition getTotalMessages (env : Env) : M uint256 :=
  gets messageCount.

(** The getters of the two public state variables, [messages(uint256)] and
    [messageCount()]. *)
Definition get_messages (env : Env) (_messageId : uint256)
    : M (handle * address * string * handle * uint256 * bool) :=
  message <~ gets (λ s, messages s !!! _messageId) ;;
  ret (encryptedSender message, recipient message, contentCID message,
       encryptedKey message, timestamp message, isDeleted message).

Definition get_messageCount (env : Env) : M uint256 :=
  gets messageCount.

(** *** Transactions

    Every external function of the contract can be the target of a call.  A
    call that fails leaves storage as it was before the call. *)

Inductive Call :=
| CallSendMessage (_recipient : address) (_contentCID : string)
                  (_encryptedSender : handle) (_senderProof : bytes)
                  (_encryptedKey : handle) (_keyProof : bytes)
| CallGetMessage (_messageId : uint256)
| CallGetMessageMetadata (_messageId : uint256)
| CallGetMyReceivedMessages
| CallGetMySentMessages
| CallGetReceivedMessagesOf (_recipient : address)
| CallDeleteMessage (_messageId : uint256)
| CallIsRecipient (_messageId : uint256)
| CallGetTotalMessages
| CallMessages (_messageId : uint256)
| CallMessageCount.

Inductive Value :=
| VUint (n : uint256)
| VMessage (m : handle * string * handle * uint256)
| VMetadata (m : address * string * uint256 * bool)
| VRecord (m : handle * address * string * handle * uint256 * bool)
| VIds (l : list uint256)
| VBool (b : bool)
| VUnit.

Record Tx := mkTx { tx_env : Env; tx_call : Call }.

Definition dispatch (env : Env) (c : Call) : M Value :=
  match c with
  | CallSendMessage r cid es sp ek kp =>
      v <~ sendMessage env r cid es sp ek kp ;; ret (VUint v)
  | CallGetMessage i => v <~ getMessage env i ;; ret (VMessage v)
  | CallGetMessageMetadata i => v <~ getMessageMetadata env i ;; ret (VMetadata v)
  | CallGetMyReceivedMessages => v <~ getMyReceivedMessages env ;; ret (VIds v)
  | CallGetMySentMessages => v <~ getMySentMessages env ;; ret (VIds v)
  | CallGetReceivedMessagesOf a => v <~ getReceivedMessagesOf env a ;; ret (VIds v)
  | CallDeleteMessage i => deleteMessage env i ;;; ret VUnit
  | CallIsRecipient i => v <~ isRecipient env i ;; ret (VBool v)
  | CallGetTotalMessages => v <~ getTotalMessages env ;; ret (VUint v)
  | CallMessages i => v <~ get_messages env i ;; ret (VRecord v)
  | CallMessageCount => v <~ get_messageCount env ;; ret (VUint v)
  end.

(** Run a computation as a call: on failure all writes are rolled back. *)
Definition call {A} (m : M A) (s : State) : outcome A * State :=
  match m s with
  | (Ok a, s') => (Ok a, s')
  | (Fail f, _) => (Fail f, s)
  end.

Definition transact (s : State) (tx : Tx) : outcome Value * State :=
  call (dispatch (tx_env tx) (tx_call tx)) s.

(** The storage after a sequence of transactions. *)
Fixpoint run (s : State) (txs : list Tx) : State :=
  match txs with
  | [] => s
  | tx :: rest => run (snd (transact s tx)) rest
  end.

(** The ids handed out by the successful [sendMessage] calls of a sequence,
    in the order of the calls. *)
Definition assigned_id (tx : Tx) (o : outcome Value) : option uint256 :=
  match tx_call tx, o with
  | CallSendMessage _ _ _ _ _ _, Ok (VUint n) => Some n
  | _, _ => None
  end.

Fixpoint assigned_ids (s : State) (txs : list Tx) : list uint256 :=
  match txs with
  | [] => []
  | tx :: rest =>
      match assigned_id tx (fst (transact s tx)) with
      | Some n => n :: assigned_ids (snd (transact s tx)) rest
      | None => assigned_ids (snd (transact s tx)) rest
      end
  end.

(** A transaction that changes storage is signed by an account, and no
    account has the zero address. *)
Definition signed (tx : Tx) : Prop := msg_sender (tx_env tx) ≠ zero_address.

(** Storage reachable from deployment through transactions that all
    satisfy [P]. *)
Inductive reachable (P : Tx → Prop) : State → Prop :=
| reachable_init : reachable P init
| reachable_step s tx :
    reachable P s → P tx → reachable P (snd (transact s tx)).

(** The storage a successful [sendMessage] leaves behind. *)
Definition stored (env : Env) (_recipient : address) (_contentCID : string)
    (sender key : handle) (s : State) : State :=
  {| messages :=
       <[ messageCount s := mkMessage sender _recipient _contentCID key
                                      (block_timestamp env) false ]> (messages s);
     receivedMessages :=
       <[ _recipient := (receivedMessages s !!! _recipient) ++ [messageCount s] ]>
         (receivedMessages s);
     sentMessages :=
       <[ msg_sender env := (sentMessages s !!! msg_sender env) ++ [messageCount s] ]>
         (sentMessages s);
     messageCount := messageCount s + 1;
     acl := acl s ++ [(sender, _recipient)] ++ [(key, _recipient)]
                  ++ [(sender, this)] ++ [(key, this)];
     events := events s ++ [MessageSent (messageCount s) _recipient
                              (msg_sender env) _contentCID (block_timestamp env)] |}.

(** The storage a successful [deleteMessage] leaves behind. *)
Definition deleted (env : Env) (_messageId : uint256) (s : State) : State :=
  {| messages :=
       <[ _messageId :=
            let m := messages s !!! _messageId in
            mkMessage (encryptedSender m) (recipient m) (contentCID m)
                      (encryptedKey m) (timestamp m) true ]> (messages s);
     receivedMessages := receivedMessages s;
     sentMessages := sentMessages s;
     messageCount := messageCount s;
     acl := acl s;
     events := events s ++ [MessageDeleted _messageId (msg_sender env)] |}.

Definition is_send (c : Call) : bool :=
  match c with CallSendMessage _ _ _ _ _ _ => true | _ => false end.

(** The three things a transaction can do to storage: nothing, create the
    message numbered [messageCount], or mark one message deleted on behalf
    of its recipient. *)
Inductive effect (s : State) (tx : Tx) : outcome Value → State → Prop :=
| effect_none o :
    is_send (tx_call tx) && is_ok o = false → effect s tx o s
| effect_send r cid es sp ek kp sender key :
    tx_call tx = CallSendMessage r cid es sp ek kp →
    r ≠ zero_address →
    messageCount s < max_uint256 →
    effect s tx (Ok (VUint (messageCount s)))
           (stored (tx_env tx) r cid sender key s)
| effect_delete i :
    tx_call tx = CallDeleteMessage i →
    recipient (messages s !!! i) = msg_sender (tx_env tx) →
    isDeleted (messages s !!! i) = false →
    effect s tx (Ok VUnit) (deleted (tx_env tx) i s).

(** Two readings of one message slot, the second taken later: every field
    but [isDeleted] agrees, and [isDeleted] has not gone back to [false]. *)
Definition frozen (m m' : Message) : Prop :=
  encryptedSender m' = encryptedSender m ∧
  recipient m' = recipient m ∧
  contentCID m' = contentCID m ∧
  encryptedKey m' = encryptedKey m ∧
  timestamp m' = timestamp m ∧
  (isDeleted m = true → isDeleted m' = true).

(** A message id is created once [sendMessage] has returned it. *)
Definition created (s : State) (i : uint256) : Prop := 0 ≤ i < messageCount s.

(** What holds of storage however it was reached: the counter is a
    [uint256], and the received index of an address lists, once each, the
    created messages addressed to it. *)
Record wf (s : State) : Prop := mk_wf {
  wf_count : 0 ≤ messageCount s ≤ max_uint256;
  wf_received_NoDup : ∀ a, NoDup (receivedMessages s !!! a);
  wf_received : ∀ a i,
    i ∈ receivedMessages s !!! a ↔
    created s i ∧ recipient (messages s !!! i) = a
}.

(** Slots outside the created range read as the zero record. *)
Definition blank_outside (s : State) : Prop :=
  ∀ i, ¬ created s i → messages s !!! i = zeroMessage.

(** The number of [sendMessage] calls of a sequence that succeeded. *)
Fixpoint successful_sends (s : State) (txs : list Tx) : nat :=
  match txs with
  | [] => O
  | tx :: rest =>
      (if is_send (tx_call tx) && is_ok (fst (transact s tx)) then 1 else 0)%nat
      + successful_sends (snd (transact s tx)) rest
  end.

End Contract.

(** A runtime that accepts every proof and returns the external handle. *)
Definition permissive : Runtime :=
  {| fromExternal_eaddress := λ _ h _, Some h;
     fromExternal_euint256 := λ _ h _, Some h;
     this := 4096 |}.

(** A runtime that rejects every proof. *)
Definition rejecting : Runtime :=
  {| fromExternal_eaddress := λ _ _ _, None;
     fromExternal_euint256 := λ _ _ _, None;
     this := 4096 |}.

(** A small cast for worked scenarios. *)
Module Scenario.

Definition alice : address := 10.
Definition bob : address := 11.
Definition carol : address := 12.

Definition at_time (a : address) (t : uint256) : Env := mkEnv a t.

Definition send (from to : address) (cid : string) (t : uint256) : Tx :=
  mkTx (at_time from t) (CallSendMessage to cid 501 [] 502 []).

Definition delete (from : address) (i : uint256) (t : uint256) : Tx :=
  mkTx (at_time from t) (CallDeleteMessage i).

(** alice sends "locX" to bob. *)
Definition sent_one : State :=
  run (rt := permissive) init [send alice bob "locX" 1000].

(** ... and bob deletes it. *)
Definition sent_and_deleted : State :=
  run (rt := permissive) init [send alice bob "locX" 1000; delete bob 0 1001].

End Scenario.

End Ledger.


(** ** The content cipher *)

Module Cipher.

Local Open Scope N_scope.

Abbreviation Uint8Array := (list Byte.byte) (only parsing).

(** *** The platform

    [crypto.subtle] with the AES-CBC algorithm and [TextEncoder] belong to
    the browser.  They are consumed through this interface: the cipher maps
    a raw key, an initialisation vector and data to data, and decryption can
    reject its input. *)
Class Platform := {
  TextEncoder_encode : string → Uint8Array;
  aes_cbc_encrypt : Uint8Array → Uint8Array → Uint8Array → Uint8Array;
  aes_cbc_decrypt : Uint8Array → Uint8Array → Uint8Array → option Uint8Array
}.

(** What the platform promises: with a 256-bit key and a 128-bit vector,
    decryption undoes encryption, and a ciphertext is never empty (it always
    ends in a padding block). *)
Class PlatformLaws (P : Platform) : Prop := {
  aes_cbc_decrypt_encrypt key iv data :
    length key = 32%nat → length iv = 16%nat →
    aes_cbc_decrypt key iv (aes_cbc_encrypt key iv data) = Some data;
  aes_cbc_encrypt_nonempty key iv data :
    aes_cbc_encrypt key iv data ≠ []
}.

(** The source of [crypto.getRandomValues]: an arbitrary sequence of bytes
    and how far it has been consumed. *)
Record Rng := mkRng { source : nat → Byte.byte; cursor : nat }.

(** [crypto.getRandomValues(new Uint8Array(n))] *)
Definition getRandomValues (n : nat) (g : Rng) : Uint8Array * Rng :=
  (map (source g) (seq (cursor g) n), mkRng (source g) (cursor g + n)).

(** A [CryptoKey] made by [importKey('raw', ..., {name: 'AES-CBC'}, ...)]:
    the raw key, which must be 128, 192 or 256 bits long. *)
Definition importKey (raw : Uint8Array) : option Uint8Array :=
  if (length raw =? 16)%nat || (length raw =? 24)%nat || (length raw =? 32)%nat
  then Some raw else None.

Section WithPlatform.

Context {P : Platform}.

(** [crypto.subtle.encrypt({name: 'AES-CBC', iv}, key, data)] and its
    inverse; both reject a vector that is not 16 bytes long. *)
Definition subtle_encrypt (iv key data : Uint8Array) : option Uint8Array :=
  if (length iv =? 16)%nat then Some (aes_cbc_encrypt key iv data) else None.

Definition subtle_decrypt (iv key data : Uint8Array) : option Uint8Array :=
  if (length iv =? 16)%nat then aes_cbc_decrypt key iv data else None.

(** *** Bytes to hexadecimal text *)

Definition hexDigit (n : N) : ascii :=
  match String.get (N.to_nat n) "0123456789abcdef" with
  | Some c => c
  | None => "0"%char
  end.

(** [n.toString(16)] for a non-negative integer [n]. *)
Fixpoint toString16_aux (fuel : nat) (n : N) (acc : string) : string :=
  match fuel with
  | O => acc
  | S fuel' =>
      let acc' := String (hexDigit (n mod 16)) acc in
      if n / 16 =? 0 then acc' else toString16_aux fuel' (n / 16) acc'
  end.

Definition toString16 (n : N) : string :=
  toString16_aux (S (N.to_nat (N.log2 n))) n EmptyString.

(** [s.padStart(target, pad)] for a one-character [pad]. *)
Definition padStart (target : nat) (pad : ascii) (s : string) : string :=
  String.append
    (string_of_list_ascii (repeat pad (target - String.length s)%nat)) s.

(** [Array.from(a).map(b => b.toString(16).padStart(2, '0')).join('')] *)
Definition toHex (a : Uint8Array) : string :=
  String.concat EmptyString
    (map (λ b, padStart 2 "0"%char (toString16 (Byte.to_N b))) a).

(** *** Hexadecimal text to bytes *)

(** The line terminators a [.] of a regular expression does not match,
    among the characters a [string] can hold. *)
Definition isLineTerminator (c : ascii) : bool :=
  let n := N_of_ascii c in (n =? 10) || (n =? 13).

(** [s.match(/.{1,2}/g)]: the successive matches, each as long as it can
    be, or [null] when there is none. *)
Fixpoint pairs (s : string) : list string :=
  match s with
  | EmptyString => []
  | String c1 rest =>
      if isLineTerminator c1 then pairs rest
      else match rest with
           | EmptyString => [String c1 EmptyString]
           | String c2 rest' =>
               if isLineTerminator c2
               then String c1 EmptyString :: pairs rest'
               else String c1 (String c2 EmptyString) :: pairs rest'
           end
  end.

Definition match_pairs (s : string) : option (list string) :=
  match pairs s with
  | [] => None
  | l => Some l
  end.

(** [parseInt(s, 16)]; [None] stands for [NaN]. *)
Definition isWhiteSpace (c : ascii) : bool :=
  let n := N_of_ascii c in
  (n =? 9) || (n =? 10) || (n =? 11) || (n =? 12) || (n =? 13)
  || (n =? 32) || (n =? 160).

Fixpoint trimStart (s : string) : string :=
  match s with
  | String c rest => if isWhiteSpace c then trimStart rest else s
  | EmptyString => s
  end.

Definition hexValue (c : ascii) : option Z :=
  let n := N_of_ascii c in
  if (48 <=? n) && (n <=? 57) then Some (Z.of_N (n - 48))
  else if (97 <=? n) && (n <=? 102) then Some (Z.of_N (n - 87))
  else if (65 <=? n) && (n <=? 70) then Some (Z.of_N (n - 55))
  else None.

Fixpoint digits16 (s : string) (acc : Z) (seen : bool) : option Z :=
  match s with
  | String c rest =>
      match hexValue c with
      | Some d => digits16 rest (16 * acc + d)%Z true
      | None => if seen then Some acc else None
      end
  | EmptyString => if seen then Some acc else None
  end.

Definition stripSign (s : string) : Z * string :=
  match s with
  | String "-" rest => ((-1)%Z, rest)
  | String "+" rest => (1%Z, rest)
  | _ => (1%Z, s)
  end.

Definition strip0x (s : string) : string :=
  match s with
  | String "0" (String "x" rest) => rest
  | String "0" (String "X" rest) => rest
  | _ => s
  end.

Definition parseInt16 (s : string) : option Z :=
  let '(sign, s1) := stripSign (trimStart s) in
  match digits16 (strip0x s1) 0%Z false with
  | Some n => Some (sign * n)%Z
  | None => None
  end.

(** Storing a number in a [Uint8Array]: [NaN] becomes 0, an integer is
    taken modulo 256. *)
Definition toUint8 (v : option Z) : Byte.byte :=
  match v with
  | None => Byte.x00
  | Some z =>
      match Byte.of_N (Z.to_N (z mod 256)) with
      | Some b => b
      | None => Byte.x00
      end
  end.

(** [new Uint8Array(hex.match(/.{1,2}/g)!.map(byte => parseInt(byte, 16)))];
    a [null] match makes the [map] throw. *)
Definition parseHex (hex : string) : option Uint8Array :=
  match match_pairs hex with
  | Some l => Some (map (λ byte, toUint8 (parseInt16 byte)) l)
  | None => None
  end.

(** *** The two functions *)

Inductive Content :=
| Text (s : string)
| Binary (b : Uint8Array).

Record Encrypted := mkEncrypted {
  encrypted : string;
  key : Uint8Array;
  iv : string
}.

Definition contentBytes (content : Content) : Uint8Array :=
  match content with
  | Text s => TextEncoder_encode s
  | Binary b => b
  end.

Definition encryptFileWithAES (content : Content) (g : Rng)
    : option Encrypted * Rng :=
  let '(aesKey, g) := getRandomValues 32 g in
  let '(iv, g) := getRandomValues 16 g in
  match importKey aesKey with
  | None => (None, g)
  | Some cryptoKey =>
      let contentBytes := contentBytes content in
      match subtle_encrypt iv cryptoKey contentBytes with
      | None => (None, g)
      | Some encryptedArray =>
          let encryptedHex := toHex encryptedArray in
          let ivHex := toHex iv in
          (Some {| encrypted := encryptedHex; key := aesKey; iv := ivHex |}, g)
      end
  end.

Definition decryptFileContent (encryptedHex : string) (key iv : Uint8Array)
    : option Uint8Array :=
  match importKey key with
  | None => None
  | Some cryptoKey =>
      match parseHex encryptedHex with
      | None => None
      | Some encryptedBytes => subtle_decrypt iv cryptoKey encryptedBytes
      end
  end.

End WithPlatform.

(** *** A platform to run the functions on

    Cipher-block chaining with PKCS#7 padding over a block cipher that only
    adds the key to the block; the chaining works one byte at a time on a
    window of the last 16 ciphertext bytes, which starts as the vector. *)
Module XorCbc.

Definition bits := (bool * (bool * (bool * (bool * (bool * (bool * (bool * bool)))))))%type.

Definition xor_bits (a b : bits) : bits :=
  let '(a0, (a1, (a2, (a3, (a4, (a5, (a6, a7))))))) := a in
  let '(b0, (b1, (b2, (b3, (b4, (b5, (b6, b7))))))) := b in
  (xorb a0 b0, (xorb a1 b1, (xorb a2 b2, (xorb a3 b3,
   (xorb a4 b4, (xorb a5 b5, (xorb a6 b6, xorb a7 b7))))))).

Definition xor_byte (a b : Byte.byte) : Byte.byte :=
  Byte.of_bits (xor_bits (Byte.to_bits a) (Byte.to_bits b)).

Definition front (w : Uint8Array) : Byte.byte := hd Byte.x00 w.

Fixpoint chain_encrypt (window keys data : Uint8Array) : Uint8Array :=
  match data with
  | [] => []
  | b :: rest =>
      let c := xor_byte (xor_byte b (front window)) (front keys) in
      c :: chain_encrypt (tl window ++ [c]) (tl keys ++ [front keys]) rest
  end.

Fixpoint chain_decrypt (window keys data : Uint8Array) : Uint8Array :=
  match data with
  | [] => []
  | c :: rest =>
      xor_byte (xor_byte c (front keys)) (front window)
      :: chain_decrypt (tl window ++ [c]) (tl keys ++ [front keys]) rest
  end.

Definition padByte (n : nat) : Byte.byte :=
  match Byte.of_N (N.of_nat n) with Some b => b | None => Byte.x00 end.

Definition padLength (data : Uint8Array) : nat :=
  (16 - length data mod 16)%nat.

Definition pad (data : Uint8Array) : Uint8Array :=
  data ++ repeat (padByte (padLength data)) (padLength data).

Definition unpad (data : Uint8Array) : option Uint8Array :=
  match last data with
  | None => None
  | Some b =>
      let n := N.to_nat (Byte.to_N b) in
      if (1 <=? n)%nat && (n <=? 16)%nat && (n <=? length data)%nat
      then Some (firstn (length data - n) data)
      else None
  end.

Definition latin1 (s : string) : Uint8Array :=
  map byte_of_ascii (list_ascii_of_string s).

Definition platform : Platform :=
  {| TextEncoder_encode := latin1;
     aes_cbc_encrypt := λ key iv data, chain_encrypt iv (firstn 16 key) (pad data);
     aes_cbc_decrypt := λ key iv data, unpad (chain_decrypt iv (firstn 16 key) data) |}.

(** A random source that counts, and the text "hi". *)
Definition counting : Rng :=
  mkRng (λ i, match Byte.of_N (N.of_nat i mod 256) with
              | Some b => b
              | None => Byte.x00
              end) 0.

Definition hi : Content := Binary [Byte.x68; Byte.x69].

End XorCbc.

End Cipher.

(** ** The ledger's log, grants and sender index *)

Module Journal.
Import Ledger.

(** The ids of the deletions a log records, oldest first. *)
Definition deletion_of (e : Event) : option uint256 :=
  match e with
  | MessageDeleted i _ => Some i
  | _ => None
  end.

Definition deletions (l : list Event) : list uint256 := omap deletion_of l.

(** Block timestamps that never go back along a sequence of transactions,
    starting no earlier than [t]. *)
Fixpoint time_ordered (t : uint256) (txs : list Tx) : Prop :=
  match txs with
  | [] => True
  | tx :: rest =>
      t ≤ block_timestamp (tx_env tx) ∧
      time_ordered (block_timestamp (tx_env tx)) rest
  end.

(** Every created message was stamped no later than [t]. *)
Definition stamped_before (t : uint256) (s : State) : Prop :=
  ∀ i, created s i → timestamp (messages s !!! i) ≤ t.

(** Timestamps do not decrease with the id. *)
Definition time_monotone (s : State) : Prop :=
  ∀ i j, 0 ≤ i → i ≤ j → j < messageCount s →
         timestamp (messages s !!! i) ≤ timestamp (messages s !!! j).

(** The sender index and the [MessageSent] events tell the same story as
    the stored messages. *)
Record log_wf (s : State) : Prop := mk_log_wf {
  log_sent_NoDup : ∀ a, NoDup (sentMessages s !!! a);
  log_sent_index : ∀ a i,
    i ∈ sentMessages s !!! a ↔
    ∃ r cid t, MessageSent i r a cid t ∈ events s;
  log_sent_fields : ∀ i r a cid t,
    MessageSent i r a cid t ∈ events s →
    created s i ∧
    recipient (messages s !!! i) = r ∧
    contentCID (messages s !!! i) = cid ∧
    timestamp (messages s !!! i) = t;
  log_sent_all : ∀ i,
    created s i → ∃ r a cid t, MessageSent i r a cid t ∈ events s;
  log_no_read : ∀ i x, MessageRead i x ∉ events s
}.

(** The [MessageDeleted] events are the deletions that happened. *)
Record deletion_wf (s : State) : Prop := mk_deletion_wf {
  deletion_log : ∀ i d,
    MessageDeleted i d ∈ events s ↔
    created s i ∧ isDeleted (messages s !!! i) = true ∧
    recipient (messages s !!! i) = d;
  deletion_once : NoDup (deletions (events s))
}.

Section WithRuntime.

Context {rt : Runtime}.

(** The grants are those of the created messages: both handles of a
    message to its recipient and to the contract, and nothing else. *)
Record acl_wf (s : State) : Prop := mk_acl_wf {
  acl_sound : ∀ h a,
    (h, a) ∈ acl s →
    ∃ i, created s i ∧
         (a = recipient (messages s !!! i) ∨ a = this) ∧
         (h = encryptedSender (messages s !!! i) ∨
          h = encryptedKey (messages s !!! i));
  acl_complete : ∀ i,
    created s i →
    (encryptedSender (messages s !!! i), recipient (messages s !!! i)) ∈ acl s ∧
    (encryptedKey (messages s !!! i), recipient (messages s !!! i)) ∈ acl s ∧
    (encryptedSender (messages s !!! i), this) ∈ acl s ∧
    (encryptedKey (messages s !!! i), this) ∈ acl s
}.

End WithRuntime.

(** One more transaction for the scenarios: carol sends "locY" to alice. *)
Definition three_steps : list Tx :=
  [Scenario.send Scenario.alice Scenario.bob "locX" 1000;
   Scenario.delete Scenario.bob 0 1001;
   Scenario.send Scenario.carol Scenario.alice "locY" 1002].

Definition after_three : State := run (rt := permissive) init three_steps.

(** Storage whose counter has reached the largest [uint256]. *)
Definition brimful : State := set_messageCount max_uint256 init.

End Journal.

(** ** Carrying the key and the sender through the protected fields

    The key and the sender address travel as integers: the key is written
    as hexadecimal text when a message is prepared, read as a [BigInt] when
    it is committed, and turned back into text and bytes after the
    authorized decryption. *)

Module Transport.
Import Cipher.

Local Open Scope N_scope.

(** *** Strings *)

Fixpoint string_forall (p : ascii → bool) (s : string) : bool :=
  match s with
  | EmptyString => true
  | String c rest => p c && string_forall p rest
  end.

(** [s.startsWith(p)] and [s.slice(2)] *)
Fixpoint startsWith (p s : string) : bool :=
  match p with
  | EmptyString => true
  | String a p' =>
      match s with
      | EmptyString => false
      | String b s' => Ascii.eqb a b && startsWith p' s'
      end
  end.

Definition slice2 (s : string) : string :=
  match s with
  | String _ (String _ rest) => rest
  | _ => EmptyString
  end.

(** Removing the white space at the end of a string. *)
Fixpoint trimEnd (s : string) : string :=
  match s with
  | EmptyString => EmptyString
  | String c rest =>
      match trimEnd rest with
      | EmptyString => if isWhiteSpace c then EmptyString else String c EmptyString
      | rest' => String c rest'
      end
  end.

(** *** [BigInt(s)] for a string [s]; [None] stands for the [SyntaxError] *)

Definition digitOf (radix : Z) (c : ascii) : option Z :=
  match hexValue c with
  | Some d => if (d <? radix)%Z then Some d else None
  | None => None
  end.

Fixpoint digitsAll (radix : Z) (s : string) (acc : Z) : option Z :=
  match s with
  | EmptyString => Some acc
  | String c rest =>
      match digitOf radix c with
      | Some d => digitsAll radix rest (radix * acc + d)%Z
      | None => None
      end
  end.

Definition digitsNonEmpty (radix : Z) (s : string) : option Z :=
  match s with
  | EmptyString => None
  | _ => digitsAll radix s 0%Z
  end.

Definition BigInt (s : string) : option Z :=
  match trimEnd (trimStart s) with
  | EmptyString => Some 0%Z
  | String "0" (String "x" ds) => digitsNonEmpty 16 ds
  | String "0" (String "X" ds) => digitsNonEmpty 16 ds
  | String "0" (String "o" ds) => digitsNonEmpty 8 ds
  | String "0" (String "O" ds) => digitsNonEmpty 8 ds
  | String "0" (String "b" ds) => digitsNonEmpty 2 ds
  | String "0" (String "B" ds) => digitsNonEmpty 2 ds
  | String "+" ds => digitsNonEmpty 10 ds
  | String "-" ds =>
      match digitsNonEmpty 10 ds with
      | Some n => Some (- n)%Z
      | None => None
      end
  | t => digitsNonEmpty 10 t
  end.

(** *** The steps of the three handlers *)

(** [handlePrepareMessage]:
    ['0x' + Array.from(key).map(b => b.toString(16).padStart(2, '0')).join('')] *)
Definition keyHexOf (key : Uint8Array) : string :=
  String "0" (String "x" (toHex key)).

(** [handleDecryptMessage]: the text of a decrypted integer, without a
    leading ["0x"] if there is one, padded on the left to [width]. *)
Definition paddedHex (width : nat) (decrypted : N) : string :=
  let hex := toString16 decrypted in
  let hex := if startsWith "0x" hex then slice2 hex else hex in
  padStart width "0"%char hex.

Definition senderHexOf (decryptedSender : N) : string :=
  paddedHex 40 decryptedSender.

Definition aesKeyHexOf (decryptedKey : N) : string :=
  paddedHex 64 decryptedKey.


Section WithPlatform.

Context {P : Platform}.



End WithPlatform.

(** *** Vocabulary for the statements *)

(** The integer a byte sequence denotes, most significant byte first. *)
Definition be_value (l : Uint8Array) : N :=
  fold_left (λ acc b, 256 * acc + Byte.to_N b) l 0.

(** The [w] hexadecimal digits of [n], most significant first. *)
Fixpoint hexOfWidth (w : nat) (n : N) : string :=
  match w with
  | O => EmptyString
  | S w' =>
      String.append (hexOfWidth w' (n / 16))
                    (String (hexDigit (n mod 16)) EmptyString)
  end.

Definition isHexDigit (c : ascii) : bool :=
  match hexValue c with Some _ => true | None => false end.

Definition zeros (k : nat) : string := string_of_list_ascii (repeat "0"%char k).

(** A key with leading zero bytes. *)
Definition low_key : Uint8Array :=
  [Byte.x00; Byte.x00; Byte.x0a] ++ repeat Byte.xff 29.

End Transport.

(** ** The command-line tasks *)

Module Tasks.
Import Ledger Cipher Transport.

(** The [send] task's check of its [--key] argument: the text is given the
    prefix ["0x"] unless it has it, and must then be 66 characters long;
    [None] stands for the thrown error. *)
Definition taskKeyHex (key : string) : option string :=
  let keyHex :=
    if startsWith "0x" key then key else String "0" (String "x" key) in
  if (String.length keyHex =? 66)%nat then Some keyHex else None.

(** The [send] task's message id: once its transaction is confirmed it
    reads [getTotalMessages] and subtracts one. *)
Definition taskMessageId (env : Env) : M Z :=
  messageCount <~ getTotalMessages env ;;
  ret (messageCount - 1).

End Tasks.

(** ** Properties of the ledger contract *)

Module LedgerFacts.
Import Ledger.

Section WithRuntime.

Context {rt : Runtime}.

(** *** What each function computes *)

Ltac proj :=
  cbn [messages receivedMessages sentMessages messageCount acl events
       set_messages set_receivedMessages set_sentMessages set_messageCount
       set_acl set_events stored deleted
       encryptedSender recipient contentCID encryptedKey timestamp isDeleted
       tx_env tx_call msg_sender block_timestamp fst snd].

Ltac unfold_state :=
  unfold ret, fail, gets, modify, emit, allowThis, allow; proj.

Lemma state_ext (s1 s2 : State) :
  messages s1 = messages s2 →
  receivedMessages s1 = receivedMessages s2 →
  sentMessages s1 = sentMessages s2 →
  messageCount s1 = messageCount s2 →
  acl s1 = acl s2 →
  events s1 = events s2 →
  s1 = s2.
Proof. destruct s1, s2; proj; congruence. Qed.

Lemma sendMessage_unfold env r cid es sp ek kp s :
  sendMessage env r cid es sp ek kp s =
    if r =? zero_address then (Fail (Revert "Invalid recipient"), s)
    else if (0 <? String.length cid)%nat then
      match fromExternal_eaddress env es sp with
      | None => (Fail RuntimeRevert, s)
      | Some sender =>
          match fromExternal_euint256 env ek kp with
          | None => (Fail RuntimeRevert, s)
          | Some key =>
              if messageCount s <? max_uint256
              then (Ok (messageCount s), stored env r cid sender key s)
              else (Fail (Panic 17),
                    set_messageCount (messageCount s) (stored env r cid sender key s))
          end
      end
    else (Fail (Revert "Empty content CID"), s).
Proof.
  unfold sendMessage, bind, require.
  destruct (r =? zero_address); [reflexivity|].
  destruct (0 <? String.length cid)%nat; [|reflexivity].
  cbn.
  destruct (fromExternal_eaddress env es sp) as [sender|]; [|reflexivity].
  destruct (fromExternal_euint256 env ek kp) as [key|]; [|reflexivity].
  cbn. unfold increment_messageCount, bind. cbn.
  destruct (messageCount s <? max_uint256); cbn.
  - unfold_state. f_equal. apply state_ext; proj; try reflexivity.
    by rewrite <- !app_assoc.
  - unfold_state. f_equal. apply state_ext; proj; try reflexivity.
    by rewrite <- !app_assoc.
Qed.

Lemma deleteMessage_unfold env i s :
  deleteMessage env i s =
    if recipient (messages s !!! i) =? msg_sender env then
      if isDeleted (messages s !!! i)
      then (Fail (Revert "Already deleted"), s)
      else (Ok tt, deleted env i s)
    else (Fail (Revert "Not authorized"), s).
Proof.
  unfold deleteMessage, bind, require. cbn.
  destruct (recipient (messages s !!! i) =? msg_sender env); [|reflexivity].
  destruct (isDeleted (messages s !!! i)); reflexivity.
Qed.

Lemma getMessage_unfold env i s :
  getMessage env i s =
    (let m := messages s !!! i in
     if isDeleted m then Fail (Revert "Message deleted")
     else if recipient m =? msg_sender env
          then Ok (encryptedSender m, contentCID m, encryptedKey m, timestamp m)
          else Fail (Revert "Not authorized"),
     s).
Proof.
  unfold getMessage, bind, require. cbn.
  destruct (isDeleted (messages s !!! i)); [reflexivity|].
  destruct (recipient (messages s !!! i) =? msg_sender env); reflexivity.
Qed.

(** *** What each transaction does to storage *)

Lemma transact_send env r cid es sp ek kp s :
  transact s (mkTx env (CallSendMessage r cid es sp ek kp)) =
    if r =? zero_address then (Fail (Revert "Invalid recipient"), s)
    else if (0 <? String.length cid)%nat then
      match fromExternal_eaddress env es sp with
      | None => (Fail RuntimeRevert, s)
      | Some sender =>
          match fromExternal_euint256 env ek kp with
          | None => (Fail RuntimeRevert, s)
          | Some key =>
              if messageCount s <? max_uint256
              then (Ok (VUint (messageCount s)), stored env r cid sender key s)
              else (Fail (Panic 17), s)
          end
      end
    else (Fail (Revert "Empty content CID"), s).
Proof.
  unfold transact, call, dispatch, bind; cbn [tx_env tx_call].
  rewrite sendMessage_unfold.
  destruct (r =? zero_address); [reflexivity|].
  destruct (0 <? String.length cid)%nat; [|reflexivity].
  destruct (fromExternal_eaddress env es sp); [|reflexivity].
  destruct (fromExternal_euint256 env ek kp); [|reflexivity].
  destruct (messageCount s <? max_uint256); reflexivity.
Qed.

Lemma transact_delete env i s :
  transact s (mkTx env (CallDeleteMessage i)) =
    if recipient (messages s !!! i) =? msg_sender env then
      if isDeleted (messages s !!! i)
      then (Fail (Revert "Already deleted"), s)
      else (Ok VUnit, deleted env i s)
    else (Fail (Revert "Not authorized"), s).
Proof.
  unfold transact, call, dispatch, bind; cbn [tx_env tx_call].
  rewrite deleteMessage_unfold.
  destruct (recipient (messages s !!! i) =? msg_sender env); [|reflexivity].
  destruct (isDeleted (messages s !!! i)); reflexivity.
Qed.

Lemma transact_getMessage env i s :
  snd (transact s (mkTx env (CallGetMessage i))) = s.
Proof.
  unfold transact, call, dispatch, bind; cbn [tx_env tx_call].
  rewrite getMessage_unfold. cbn zeta. proj.
  destruct (isDeleted (messages s !!! i)); [reflexivity|].
  destruct (recipient (messages s !!! i) =? msg_sender env); reflexivity.
Qed.

Lemma transact_effect s tx :
  effect s tx (fst (transact s tx)) (snd (transact s tx)).
Proof.
  destruct tx as [env c]. destruct c.
  - rewrite transact_send.
    destruct (Z.eqb_spec _recipient zero_address); [by constructor|].
    destruct (0 <? String.length _contentCID)%nat; [|by constructor].
    destruct (fromExternal_eaddress _ _ _); [|by constructor].
    destruct (fromExternal_euint256 _ _ _); [|by constructor].
    destruct (Z.ltb_spec (messageCount s) max_uint256); [|by constructor].
    cbn. by eapply (effect_send s (mkTx env _) _recipient).
  - rewrite (surjective_pairing (transact _ _)), transact_getMessage.
    by constructor.
  - by constructor.
  - by constructor.
  - by constructor.
  - by constructor.
  - rewrite transact_delete.
    destruct (Z.eqb_spec (recipient (messages s !!! _messageId)) (msg_sender env));
      [|by constructor].
    destruct (isDeleted (messages s !!! _messageId)) eqn:Hd; [by constructor|].
    cbn. by eapply (effect_delete s (mkTx env _)).
  - by constructor.
  - by constructor.
  - by constructor.
  - by constructor.
Qed.

(** *** Monotonicity of the counter and stability of created messages *)

Lemma frozen_refl m : frozen m m.
Proof. by repeat split. Qed.

Lemma frozen_trans m1 m2 m3 : frozen m1 m2 → frozen m2 m3 → frozen m1 m3.
Proof.
  intros (?&?&?&?&?&?) (?&?&?&?&?&?).
  repeat split; try congruence. auto.
Qed.

Lemma effect_count s tx o s' :
  effect s tx o s' → messageCount s ≤ messageCount s' ≤ messageCount s + 1.
Proof. destruct 1; cbn; lia. Qed.

Lemma effect_frozen s tx o s' i :
  effect s tx o s' → i < messageCount s →
  frozen (messages s !!! i) (messages s' !!! i).
Proof.
  destruct 1 as [o _|r cid es sp ek kp sender key _ _ _|j _ Hr Hd]; intros Hi; cbn.
  - apply frozen_refl.
  - rewrite lookup_total_insert_ne by lia. apply frozen_refl.
  - destruct (decide (j = i)) as [-> | Hne].
    + rewrite lookup_total_insert_eq. by repeat split.
    + rewrite lookup_total_insert_ne by done. apply frozen_refl.
Qed.

Lemma run_count s txs : messageCount s ≤ messageCount (run s txs).
Proof.
  revert s. induction txs as [|tx txs IH]; intros s; cbn; [lia|].
  pose proof (effect_count _ _ _ _ (transact_effect s tx)).
  specialize (IH (snd (transact s tx))). lia.
Qed.

Lemma run_frozen s txs i :
  i < messageCount s → frozen (messages s !!! i) (messages (run s txs) !!! i).
Proof.
  revert s. induction txs as [|tx txs IH]; intros s Hi; cbn.
  - apply frozen_refl.
  - pose proof (transact_effect s tx) as He.
    eapply frozen_trans; [by eapply effect_frozen|].
    apply IH. pose proof (effect_count _ _ _ _ He). lia.
Qed.

Lemma run_app s txs1 txs2 : run s (txs1 ++ txs2) = run (run s txs1) txs2.
Proof. revert s. induction txs1; intros s; cbn; [done|]. apply IHtxs1. Qed.

(** *** Invariants of reachable storage *)

Lemma wf_init : wf init.
Proof.
  split; cbn.
  - unfold max_uint256. lia.
  - intros a. rewrite lookup_total_empty. constructor.
  - intros a i. rewrite lookup_total_empty. unfold created; cbn.
    split; [by intros ?%elem_of_nil|lia].
Qed.

Lemma effect_wf s tx o s' : effect s tx o s' → wf s → wf s'.
Proof.
  destruct 1 as [o _|r cid es sp ek kp sender key _ Hr Hlt|j _ Hr Hd];
    intros [Hc Hnd Hidx];
    [by split| |].
  - split; cbn.
    + lia.
    + intros a. destruct (decide (r = a)) as [-> | Hne].
      * rewrite lookup_total_insert_eq. apply NoDup_app.
        split_and!; [apply Hnd| |apply NoDup_singleton].
        intros i Hi ->%list_elem_of_singleton.
        apply Hidx in Hi as [Hi _]. unfold created in Hi. lia.
      * rewrite lookup_total_insert_ne by done. apply Hnd.
    + intros a i. unfold created; cbn.
      destruct (decide (messageCount s = i)) as [<- | Hi].
      * rewrite lookup_total_insert_eq; cbn.
        destruct (decide (r = a)) as [-> | Hne].
        -- rewrite lookup_total_insert_eq, elem_of_app, list_elem_of_singleton.
           split; [intros _; split; [lia|done]|by right].
        -- rewrite lookup_total_insert_ne by done. rewrite Hidx.
           unfold created. split; [lia|]. by intros [_ ?].
      * rewrite (lookup_total_insert_ne (messages s)) by done.
        destruct (decide (r = a)) as [-> | Hne].
        -- rewrite lookup_total_insert_eq, elem_of_app, list_elem_of_singleton.
           rewrite Hidx. unfold created. split; [|intros [? ?]; left; split; [lia|done]].
           intros [[? ?]|?]; [split; [lia|done]|congruence].
        -- rewrite lookup_total_insert_ne by done. rewrite Hidx.
           unfold created. split; intros [? ?]; (split; [lia|done]).
  - split; cbn; [done|done|].
    intros a i. rewrite Hidx. unfold created; cbn.
    destruct (decide (j = i)) as [-> | Hne].
    + by rewrite lookup_total_insert_eq.
    + by rewrite lookup_total_insert_ne.
Qed.

Lemma reachable_wf P s : reachable P s → wf s.
Proof.
  induction 1 as [|s tx _ IH _]; [apply wf_init|].
  eapply effect_wf; [apply transact_effect|done].
Qed.

Lemma effect_blank_outside s tx o s' :
  signed tx → effect s tx o s' → wf s → blank_outside s → blank_outside s'.
Proof.
  intros Hs He [Hc _ _] Hb.
  destruct He as [o _|r cid es sp ek kp sender key _ Hr Hlt|j _ Hr Hd]; [done| |].
  - intros i Hi. unfold created in Hi; cbn in *.
    rewrite lookup_total_insert_ne by lia.
    apply Hb. unfold created. lia.
  - intros i Hi. unfold created in Hi; cbn in *.
    destruct (decide (j = i)) as [-> | Hne].
    + exfalso. apply Hs. rewrite <- Hr, (Hb i) by done. reflexivity.
    + rewrite lookup_total_insert_ne by done. by apply Hb.
Qed.

Lemma reachable_blank_outside s : reachable signed s → blank_outside s.
Proof.
  induction 1 as [|s tx Hr IH Hs].
  - intros i _. proj. unfold init; proj. by rewrite lookup_total_empty.
  - eapply effect_blank_outside; [done|apply transact_effect| |done].
    by eapply reachable_wf.
Qed.

(** *** Reading a message *)

(** C1. [getMessage] on any message slot, and so on every created one:
    while the message is not deleted the call succeeds exactly when the
    caller is the stored recipient, and then returns the stored protected
    sender, locator, protected key and timestamp; a deleted message fails
    with the state error whoever calls; a caller other than the recipient
    never succeeds, and on a message that is not deleted fails with the
    authorization error.  The call leaves storage as it was. *)
Theorem getMessage_recipient_only env s i :
  let m := messages s !!! i in
  let o := fst (getMessage env i s) in
  (isDeleted m = false → (is_ok o = true ↔ msg_sender env = recipient m)) ∧
  (isDeleted m = false → msg_sender env = recipient m →
     o = Ok (encryptedSender m, contentCID m, encryptedKey m, timestamp m)) ∧
  (isDeleted m = true →
     o = Fail (Revert "Message deleted") ∧ failure_kind o = Some StateError) ∧
  (isDeleted m = false → msg_sender env ≠ recipient m →
     o = Fail (Revert "Not authorized") ∧
     failure_kind o = Some AuthorizationError) ∧
  (msg_sender env ≠ recipient m → is_ok o = false) ∧
  snd (getMessage env i s) = s.
Proof.
  intros m o. subst o. rewrite getMessage_unfold. cbn. fold m.
  destruct (isDeleted m) eqn:Hd;
    destruct (Z.eqb_spec (recipient m) (msg_sender env)) as [He|Hne]; cbn;
    repeat split; intros; try done; congruence.
Qed.

(** *** Rejected submissions *)

(** C3. [sendMessage] with the zero address as recipient, or with an empty
    content locator, fails with a validation error before it has written
    anything: storage at the point of failure, and after the call, is the
    storage before the call, so the counter, the messages, both indices,
    the grants and the log are untouched. *)
Theorem sendMessage_rejects_invalid env r cid es sp ek kp s :
  r = zero_address ∨ cid = EmptyString →
  ∃ f, sendMessage env r cid es sp ek kp s = (Fail f, s) ∧
       classify f = Some ValidationError ∧
       transact s (mkTx env (CallSendMessage r cid es sp ek kp)) = (Fail f, s).
Proof.
  intros H. rewrite transact_send, sendMessage_unfold.
  destruct (Z.eqb_spec r zero_address) as [-> | Hr].
  - by eexists.
  - destruct H as [? | ->]; [done|]. cbn. by eexists.
Qed.

(** *** Submission followed by a metadata read *)

Lemma transact_send_Ok env r cid es sp ek kp s v s' :
  transact s (mkTx env (CallSendMessage r cid es sp ek kp)) = (Ok v, s') →
  ∃ sender key,
    r ≠ zero_address ∧ cid ≠ EmptyString ∧
    fromExternal_eaddress env es sp = Some sender ∧
    fromExternal_euint256 env ek kp = Some key ∧
    messageCount s < max_uint256 ∧
    v = VUint (messageCount s) ∧ s' = stored env r cid sender key s.
Proof.
  rewrite transact_send. intros H.
  destruct (Z.eqb_spec r zero_address); [done|].
  destruct cid as [|c cid]; [done|]. cbn in H.
  destruct (fromExternal_eaddress _ _ _) as [sender|]; [|done].
  destruct (fromExternal_euint256 _ _ _) as [key|]; [|done].
  destruct (Z.ltb_spec (messageCount s) max_uint256); [|done].
  simplify_eq. by exists sender, key.
Qed.

(** C5. After a successful [sendMessage], [getMessageMetadata] on the
    returned id, by any caller, yields the recipient and the locator that
    were submitted, the timestamp of the block of the submission, and
    [isDeleted = false]. *)
Theorem sendMessage_then_getMessageMetadata env r cid es sp ek kp s id s' env' :
  transact s (mkTx env (CallSendMessage r cid es sp ek kp)) = (Ok (VUint id), s') →
  getMessageMetadata env' id s' = (Ok (r, cid, block_timestamp env, false), s').
Proof.
  intros (sender & key & _ & _ & _ & _ & _ & Hid & ->)%transact_send_Ok.
  simplify_eq. unfold getMessageMetadata, bind, gets, ret. cbn.
  by rewrite lookup_total_insert_eq.
Qed.

(** *** Sequential ids *)

Lemma effect_assigned s tx o s' :
  effect s tx o s' →
  (assigned_id tx o = None ∧
   is_send (tx_call tx) && is_ok o = false ∧
   messageCount s' = messageCount s)
  ∨ (assigned_id tx o = Some (messageCount s) ∧
     is_send (tx_call tx) && is_ok o = true ∧
     messageCount s' = messageCount s + 1).
Proof.
  destruct 1 as [o Hn|r cid es sp ek kp sender key Hc _ _|j Hc _ _].
  - left. split_and!; [|done..].
    unfold assigned_id. destruct (tx_call tx); try done.
    by destruct o.
  - right. unfold assigned_id. rewrite Hc. by cbn.
  - left. unfold assigned_id. rewrite Hc. by cbn.
Qed.

Lemma assigned_ids_from s txs :
  assigned_ids s txs =
    (λ k, messageCount s + Z.of_nat k) <$> seq 0 (successful_sends s txs) ∧
  messageCount (run s txs) = messageCount s + Z.of_nat (successful_sends s txs).
Proof.
  revert s. induction txs as [|tx txs IH]; intros s; cbn - [Z.of_nat].
  - split; [done|lia].
  - destruct (IH (snd (transact s tx))) as [IH1 IH2].
    destruct (effect_assigned _ _ _ _ (transact_effect s tx))
      as [(-> & -> & Hc)|(-> & -> & Hc)]; rewrite IH1, IH2, Hc.
    + split; [done|lia].
    + split; [|lia]. cbn [Nat.add seq fmap list_fmap]. f_equal; [f_equal; lia|].
      rewrite <- seq_shift, <- list_fmap_compose.
      apply list_fmap_ext. intros _ k _. cbn. lia.
Qed.

(** C4. Starting from deployment, a sequence of transactions in which
    exactly [N] calls of [sendMessage] succeed hands out the ids
    [0, 1, ..., N-1], in this order, one per successful call; no id is
    handed out twice; and [getTotalMessages], like the getter of
    [messageCount], then returns [N]. *)
Theorem ids_sequential txs N env :
  successful_sends init txs = N →
  assigned_ids init txs = Z.of_nat <$> seq 0 N ∧
  NoDup (assigned_ids init txs) ∧
  fst (getTotalMessages env (run init txs)) = Ok (Z.of_nat N) ∧
  fst (get_messageCount env (run init txs)) = Ok (Z.of_nat N).
Proof.
  intros <-. destruct (assigned_ids_from init txs) as [H1 H2].
  cbn in H1, H2. assert (Hids : assigned_ids init txs =
    Z.of_nat <$> seq 0 (successful_sends init txs)).
  { rewrite H1. apply list_fmap_ext. intros _ k _. lia. }
  split_and!; [done| | |].
  - rewrite Hids. apply (NoDup_fmap_2 Z.of_nat), NoDup_seq.
  - unfold getTotalMessages, gets. cbn [fst]. by rewrite H2.
  - unfold get_messageCount, gets. cbn [fst]. by rewrite H2.
Qed.

(** *** Immutability *)

(** C7. For a created message, over any sequence of transactions, the
    protected sender handle, the recipient, the content locator, the
    protected key handle and the timestamp stay what they were, and
    [isDeleted], once [true], stays [true].  Since this holds between any
    two points of a history, no operation after the submission changes a
    field other than [isDeleted], and [isDeleted] only goes from [false] to
    [true]. *)
Theorem created_message_frozen s txs i :
  i < messageCount s →
  let m := messages s !!! i in
  let m' := messages (run s txs) !!! i in
  encryptedSender m' = encryptedSender m ∧
  recipient m' = recipient m ∧
  contentCID m' = contentCID m ∧
  encryptedKey m' = encryptedKey m ∧
  timestamp m' = timestamp m ∧
  (isDeleted m = true → isDeleted m' = true).
Proof. intros Hi. by apply run_frozen. Qed.

(** *** The received index *)

Lemma effect_received s tx o s' a :
  effect s tx o s' →
  receivedMessages s !!! a `prefix_of` receivedMessages s' !!! a.
Proof.
  destruct 1 as [o _|r cid es sp ek kp sender key _ _ _|j _ _ _]; cbn; [done| |done].
  destruct (decide (r = a)) as [-> | Hne].
  - rewrite lookup_total_insert_eq. by apply prefix_app_r.
  - by rewrite lookup_total_insert_ne.
Qed.

Lemma run_received s txs a :
  receivedMessages s !!! a `prefix_of` receivedMessages (run s txs) !!! a.
Proof.
  revert s. induction txs as [|tx txs IH]; intros s; cbn; [done|].
  etrans; [|apply IH]. eapply effect_received, transact_effect.
Qed.

(** C8. A successful [sendMessage] naming [a] as recipient makes
    [getReceivedMessagesOf a] the list it was before followed by the new
    id.  Over any sequence of transactions the list of every address only
    grows at its end.  In storage reached from deployment the list of an
    address has no repetition and holds exactly the created ids whose
    recipient is that address, so an id enters one list, once, when its
    message is created. *)
Theorem received_index_append_only :
  (∀ env a cid es sp ek kp s id s' env',
     transact s (mkTx env (CallSendMessage a cid es sp ek kp))
       = (Ok (VUint id), s') →
     fst (getReceivedMessagesOf env' a s') =
       Ok (receivedMessages s !!! a ++ [id])) ∧
  (∀ s txs a, receivedMessages s !!! a `prefix_of`
                receivedMessages (run s txs) !!! a) ∧
  (∀ P s a, reachable P s →
     NoDup (receivedMessages s !!! a) ∧
     ∀ i, i ∈ receivedMessages s !!! a ↔
          created s i ∧ recipient (messages s !!! i) = a).
Proof.
  split_and!.
  - intros env a cid es sp ek kp s id s' env'
      (sender & key & _ & _ & _ & _ & _ & Hid & ->)%transact_send_Ok.
    simplify_eq. unfold getReceivedMessagesOf, gets. cbn.
    by rewrite lookup_total_insert_eq.
  - apply run_received.
  - intros P s a [_ Hnd Hidx]%reachable_wf. split; [apply Hnd|apply Hidx].
Qed.

(** *** Ids that were never created *)

(** C9. In storage reached from deployment through signed transactions,
    [getMessageMetadata] on an id at or beyond [messageCount] succeeds for
    every caller and returns the zero address, the empty locator, timestamp
    zero and [isDeleted = false]; storage is left as it was. *)
Theorem getMessageMetadata_absent s env i :
  reachable signed s → messageCount s ≤ i →
  getMessageMetadata env i s = (Ok (zero_address, EmptyString, 0, false), s).
Proof.
  intros Hr Hi. unfold getMessageMetadata, bind, gets, ret. cbn.
  rewrite (reachable_blank_outside s Hr i); [done|].
  unfold created. lia.
Qed.

(** C10. In storage reached from deployment through signed transactions,
    [getMessage] on an id at or beyond [messageCount] fails with the
    authorization error for every caller but the zero address: the slot
    reads as the zero record, which is not deleted and has the zero address
    as recipient.  The failure is the one a created message gives to a
    caller who is not its recipient, and a call from the zero address
    succeeds with zeroed fields: nothing tells an absent id apart. *)
Theorem getMessage_absent s env i :
  reachable signed s → messageCount s ≤ i →
  messages s !!! i = zeroMessage ∧
  (msg_sender env ≠ zero_address →
     fst (getMessage env i s) = Fail (Revert "Not authorized") ∧
     failure_kind (fst (getMessage env i s)) = Some AuthorizationError) ∧
  (msg_sender env = zero_address →
     fst (getMessage env i s) = Ok (0, EmptyString, 0, 0)).
Proof.
  intros Hr Hi.
  assert (Hz : messages s !!! i = zeroMessage).
  { apply (reachable_blank_outside s Hr i). unfold created. lia. }
  rewrite getMessage_unfold, Hz. cbn zeta. unfold zeroMessage. proj.
  split_and!; [done| |].
  - intros Hne.
    destruct (Z.eqb_spec zero_address (msg_sender env)); [congruence|done].
  - intros ->. reflexivity.
Qed.

(** *** Deletion *)

(** C2, as the contract has it.  For a created message that is not
    deleted, [deleteMessage] by the recipient succeeds and sets [isDeleted];
    from then on, after any further transactions, [deleteMessage] on that id
    fails and changes nothing: with the state error when the caller is the
    recipient, and with the authorization error when the caller is anyone
    else, since the contract checks the caller before the flag. *)
Theorem deleteMessage_single_use s env i :
  i < messageCount s →
  recipient (messages s !!! i) = msg_sender env →
  isDeleted (messages s !!! i) = false →
  let first := transact s (mkTx env (CallDeleteMessage i)) in
  fst first = Ok VUnit ∧
  isDeleted (messages (snd first) !!! i) = true ∧
  ∀ txs env',
    let later := run (snd first) txs in
    let again := transact later (mkTx env' (CallDeleteMessage i)) in
    snd again = later ∧
    (msg_sender env' = msg_sender env →
       fst again = Fail (Revert "Already deleted") ∧
       failure_kind (fst again) = Some StateError) ∧
    (msg_sender env' ≠ msg_sender env →
       fst again = Fail (Revert "Not authorized") ∧
       failure_kind (fst again) = Some AuthorizationError).
Proof.
  intros Hi Hr Hd first. subst first.
  rewrite transact_delete, Hd. rewrite (proj2 (Z.eqb_eq _ _) Hr). cbn.
  rewrite lookup_total_insert_eq. cbn. split_and!; [done..|].
  intros txs env'.
  pose proof (run_frozen (deleted env i s) txs i Hi) as (_ & Hr' & _ & _ & _ & Hd').
  cbn in Hr', Hd'. rewrite lookup_total_insert_eq in Hr', Hd'. cbn in Hr', Hd'.
  rewrite transact_delete, Hr', Hr, Hd' by done.
  destruct (Z.eqb_spec (msg_sender env) (msg_sender env')); cbn;
    split_and!; try done; intros; congruence.
Qed.

End WithRuntime.

(** *** Worked scenarios *)

Import Scenario.

(** C2, as stated, fails: once bob has deleted message 0, a further
    [deleteMessage 0] by carol, who is not the recipient, fails with the
    authorization error and not with the state error. *)
Lemma deleteMessage_again_by_stranger :
  created sent_one 0 ∧
  recipient (messages sent_one !!! 0) = bob ∧
  transact (rt := permissive) sent_one (delete bob 0 1001)
    = (Ok VUnit, sent_and_deleted) ∧
  isDeleted (messages sent_and_deleted !!! 0) = true ∧
  fst (transact (rt := permissive) sent_and_deleted (delete carol 0 1002))
    = Fail (Revert "Not authorized") ∧
  failure_kind (fst (transact (rt := permissive) sent_and_deleted
                       (delete carol 0 1002)))
    ≠ Some StateError.
Proof.
  split_and!.
  - vm_compute. done.
  - vm_compute. done.
  - unfold sent_and_deleted, sent_one. cbn [run]. apply surjective_pairing.
  - vm_compute. done.
  - vm_compute. done.
  - vm_compute. done.
Qed.

Lemma init_sends :
  transact (rt := permissive) init (send alice bob "locX" 1000)
    = (Ok (VUint 0), sent_one).
Proof.
  unfold sent_one. cbn [run]. unfold send. rewrite transact_send. reflexivity.
Qed.

Lemma sent_one_reachable : reachable (rt := permissive) signed sent_one.
Proof.
  apply (reachable_step signed init (send alice bob "locX" 1000)).
  - apply reachable_init.
  - unfold signed. cbn. done.
Qed.

Lemma sent_one_message :
  messages sent_one !!! 0 = mkMessage 501 bob "locX" 502 1000 false.
Proof. vm_compute. reflexivity. Qed.

(** A submission whose proof the runtime rejects fails with the proof
    verification error and leaves storage as it was. *)
Remark rejected_proof_leaves_storage :
  transact (rt := rejecting) sent_one (send alice bob "locY" 1001)
    = (Fail RuntimeRevert, sent_one) ∧
  classify RuntimeRevert = Some ProofVerificationError.
Proof. split; [|reflexivity]. unfold send. rewrite transact_send. reflexivity. Qed.

(** Without the signature requirement the zero record can be marked: a
    [deleteMessage] whose caller is the zero address passes both checks on
    a slot that was never written. *)
Remark unsigned_delete_marks_blank_slot :
  isDeleted (messages (snd (transact (rt := permissive) init (delete 0 7 1000)))
               !!! 7) = true.
Proof. vm_compute. reflexivity. Qed.

(** C1 on the scenario: bob reads the message sent to him; once it is
    deleted nobody does; carol never does. *)
Lemma getMessage_recipient_only_witness :
  (isDeleted (messages sent_one !!! 0) = false ∧
   msg_sender (at_time bob 1001) = recipient (messages sent_one !!! 0) ∧
   is_ok (fst (getMessage (at_time bob 1001) 0 sent_one)) = true) ∧
  (isDeleted (messages sent_and_deleted !!! 0) = true ∧
   failure_kind (fst (getMessage (at_time bob 1002) 0 sent_and_deleted))
     = Some StateError) ∧
  (msg_sender (at_time carol 1001) ≠ recipient (messages sent_one !!! 0) ∧
   failure_kind (fst (getMessage (at_time carol 1001) 0 sent_one))
     = Some AuthorizationError).
Proof.
  assert (H1 : isDeleted (messages sent_one !!! 0) = false)
    by (vm_compute; reflexivity).
  assert (H2 : msg_sender (at_time bob 1001) = recipient (messages sent_one !!! 0))
    by (vm_compute; reflexivity).
  assert (H3 : isDeleted (messages sent_and_deleted !!! 0) = true)
    by (vm_compute; reflexivity).
  assert (H4 : msg_sender (at_time carol 1001) ≠ recipient (messages sent_one !!! 0))
    by (vm_compute; discriminate).
  split_and!.
  - exact H1.
  - exact H2.
  - pose proof (getMessage_recipient_only (at_time bob 1001) sent_one 0)
      as (Hiff & _).
    exact (proj2 (Hiff H1) H2).
  - exact H3.
  - pose proof (getMessage_recipient_only (at_time bob 1002) sent_and_deleted 0)
      as (_ & _ & Hdel & _).
    exact (proj2 (Hdel H3)).
  - exact H4.
  - pose proof (getMessage_recipient_only (at_time carol 1001) sent_one 0)
      as (_ & _ & _ & Hauth & _).
    exact (proj2 (Hauth H1 H4)).
Defined.

(** C2 on the scenario: bob deletes message 0; after one more submission,
    a second [deleteMessage 0] fails for bob and for carol. *)
Lemma deleteMessage_single_use_witness :
  0 < messageCount sent_one ∧
  recipient (messages sent_one !!! 0) = msg_sender (at_time bob 1001) ∧
  isDeleted (messages sent_one !!! 0) = false ∧
  fst (transact (rt := permissive) sent_one (delete bob 0 1001)) = Ok VUnit ∧
  failure_kind
    (fst (transact (rt := permissive)
            (run (rt := permissive)
               (snd (transact (rt := permissive) sent_one (delete bob 0 1001)))
               [send carol alice "locY" 1002])
            (delete bob 0 1003))) = Some StateError ∧
  failure_kind
    (fst (transact (rt := permissive)
            (run (rt := permissive)
               (snd (transact (rt := permissive) sent_one (delete bob 0 1001)))
               [send carol alice "locY" 1002])
            (delete carol 0 1003))) = Some AuthorizationError.
Proof.
  assert (H1 : 0 < messageCount sent_one) by (vm_compute; reflexivity).
  assert (H2 : recipient (messages sent_one !!! 0) = msg_sender (at_time bob 1001))
    by (vm_compute; reflexivity).
  assert (H3 : isDeleted (messages sent_one !!! 0) = false)
    by (vm_compute; reflexivity).
  pose proof (deleteMessage_single_use (rt := permissive)
                sent_one (at_time bob 1001) 0 H1 H2 H3) as (Hfirst & _ & Hlater).
  split_and!.
  - exact H1.
  - exact H2.
  - exact H3.
  - exact Hfirst.
  - destruct (Hlater [send carol alice "locY" 1002] (at_time bob 1003))
      as (_ & Hsame & _).
    exact (proj2 (Hsame eq_refl)).
  - destruct (Hlater [send carol alice "locY" 1002] (at_time carol 1003))
      as (_ & _ & Hother).
    apply Hother. vm_compute. discriminate.
Defined.

(** C3 on the scenario: the zero address as recipient, and an empty
    locator. *)
Lemma sendMessage_rejects_invalid_witness :
  (zero_address = zero_address ∨ "locX"%string = EmptyString) ∧
  (∃ f, sendMessage (rt := permissive) (at_time alice 1000)
          zero_address "locX" 501 [] 502 [] sent_one = (Fail f, sent_one) ∧
        classify f = Some ValidationError ∧
        transact (rt := permissive) sent_one
          (mkTx (at_time alice 1000)
                (CallSendMessage zero_address "locX" 501 [] 502 []))
          = (Fail f, sent_one)) ∧
  (bob = zero_address ∨ EmptyString = EmptyString) ∧
  (∃ f, sendMessage (rt := permissive) (at_time alice 1000)
          bob EmptyString 501 [] 502 [] sent_one = (Fail f, sent_one) ∧
        classify f = Some ValidationError ∧
        transact (rt := permissive) sent_one
          (mkTx (at_time alice 1000)
                (CallSendMessage bob EmptyString 501 [] 502 []))
          = (Fail f, sent_one)).
Proof.
  split_and!.
  - left. reflexivity.
  - apply sendMessage_rejects_invalid. left. reflexivity.
  - right. reflexivity.
  - apply sendMessage_rejects_invalid. right. reflexivity.
Defined.

(** C4 on a sequence of four transactions, two of them successful
    submissions. *)
Lemma ids_sequential_witness :
  let txs := [send alice bob "locX" 1000; delete bob 0 1001;
              send alice zero_address "locY" 1002; send bob carol "locZ" 1003] in
  successful_sends (rt := permissive) init txs = 2%nat ∧
  assigned_ids (rt := permissive) init txs = Z.of_nat <$> seq 0 2 ∧
  NoDup (assigned_ids (rt := permissive) init txs) ∧
  fst (getTotalMessages (at_time carol 1004) (run (rt := permissive) init txs))
    = Ok (Z.of_nat 2) ∧
  fst (get_messageCount (at_time carol 1004) (run (rt := permissive) init txs))
    = Ok (Z.of_nat 2).
Proof.
  intros txs.
  assert (H : successful_sends (rt := permissive) init txs = 2%nat)
    by (vm_compute; reflexivity).
  split; [exact H|].
  exact (ids_sequential (rt := permissive) txs 2 (at_time carol 1004) H).
Defined.

(** C5 on the scenario. *)
Lemma sendMessage_then_getMessageMetadata_witness :
  transact (rt := permissive) init (send alice bob "locX" 1000)
    = (Ok (VUint 0), sent_one) ∧
  getMessageMetadata (at_time carol 1001) 0 sent_one
    = (Ok (bob, "locX"%string, block_timestamp (at_time alice 1000), false),
       sent_one).
Proof.
  split; [exact init_sends|].
  exact (sendMessage_then_getMessageMetadata (rt := permissive) _ _ _ _ _ _ _
           _ _ _ (at_time carol 1001) init_sends).
Defined.

(** C7 on the scenario: message 0 through a deletion and a submission. *)
Lemma created_message_frozen_witness :
  let txs := [delete bob 0 1001; send carol alice "locY" 1002] in
  0 < messageCount sent_one ∧
  encryptedSender (messages (run (rt := permissive) sent_one txs) !!! 0)
    = encryptedSender (messages sent_one !!! 0) ∧
  recipient (messages (run (rt := permissive) sent_one txs) !!! 0)
    = recipient (messages sent_one !!! 0) ∧
  contentCID (messages (run (rt := permissive) sent_one txs) !!! 0)
    = contentCID (messages sent_one !!! 0) ∧
  encryptedKey (messages (run (rt := permissive) sent_one txs) !!! 0)
    = encryptedKey (messages sent_one !!! 0) ∧
  timestamp (messages (run (rt := permissive) sent_one txs) !!! 0)
    = timestamp (messages sent_one !!! 0) ∧
  (isDeleted (messages sent_one !!! 0) = true →
   isDeleted (messages (run (rt := permissive) sent_one txs) !!! 0) = true).
Proof.
  intros txs.
  assert (H : 0 < messageCount sent_one) by (vm_compute; reflexivity).
  split; [exact H|].
  exact (created_message_frozen (rt := permissive) sent_one txs 0 H).
Defined.

(** C8 on the scenario: bob's list after the first submission. *)
Lemma received_index_append_only_witness :
  transact (rt := permissive) init (send alice bob "locX" 1000)
    = (Ok (VUint 0), sent_one) ∧
  fst (getReceivedMessagesOf (at_time carol 1001) bob sent_one)
    = Ok (receivedMessages init !!! bob ++ [0]) ∧
  reachable (rt := permissive) signed sent_one ∧
  NoDup (receivedMessages sent_one !!! bob).
Proof.
  destruct (received_index_append_only (rt := permissive))
    as (Happend & _ & Honce).
  split_and!.
  - exact init_sends.
  - exact (Happend _ _ _ _ _ _ _ _ _ _ (at_time carol 1001) init_sends).
  - exact sent_one_reachable.
  - exact (proj1 (Honce signed sent_one bob sent_one_reachable)).
Defined.

(** C9 on the scenario: id 1 when one message exists. *)
Lemma getMessageMetadata_absent_witness :
  reachable (rt := permissive) signed sent_one ∧
  messageCount sent_one ≤ 1 ∧
  getMessageMetadata (at_time carol 1001) 1 sent_one
    = (Ok (zero_address, EmptyString, 0, false), sent_one).
Proof.
  assert (H : messageCount sent_one ≤ 1) by (vm_compute; discriminate).
  split_and!; [exact sent_one_reachable|exact H|].
  exact (getMessageMetadata_absent (rt := permissive) sent_one
           (at_time carol 1001) 1 sent_one_reachable H).
Defined.

(** C10 on the scenario: carol asks for id 1 when one message exists. *)
Lemma getMessage_absent_witness :
  reachable (rt := permissive) signed sent_one ∧
  messageCount sent_one ≤ 1 ∧
  msg_sender (at_time carol 1001) ≠ zero_address ∧
  failure_kind (fst (getMessage (at_time carol 1001) 1 sent_one))
    = Some AuthorizationError.
Proof.
  assert (H : messageCount sent_one ≤ 1) by (vm_compute; discriminate).
  assert (Hc : msg_sender (at_time carol 1001) ≠ zero_address)
    by (vm_compute; discriminate).
  split_and!; [exact sent_one_reachable|exact H|exact Hc|].
  destruct (getMessage_absent (rt := permissive) sent_one
              (at_time carol 1001) 1 sent_one_reachable H) as (_ & Hauth & _).
  exact (proj2 (Hauth Hc)).
Defined.

End LedgerFacts.

(** ** Properties of the content cipher *)

Module CipherFacts.
Import Cipher.

(** *** Hexadecimal text and back *)

Lemma append_empty_r s : String.append s EmptyString = s.
Proof.
  induction s as [|c t IH]; [reflexivity|].
  rewrite <- IH at 2. reflexivity.
Qed.

Lemma concat_empty_cons x xs :
  String.concat EmptyString (x :: xs) =
    String.append x (String.concat EmptyString xs).
Proof.
  destruct xs; [|reflexivity].
  symmetry. exact (append_empty_r x).
Qed.

(** A byte is written as two characters, neither a line terminator, that
    read back as the byte. *)
Lemma byte_hex b :
  ∃ c1 c2,
    padStart 2 "0"%char (toString16 (Byte.to_N b))
      = String c1 (String c2 EmptyString) ∧
    isLineTerminator c1 = false ∧
    isLineTerminator c2 = false ∧
    toUint8 (parseInt16 (String c1 (String c2 EmptyString))) = b.
Proof.
  destruct b;
    (do 2 eexists; split; [cbv; reflexivity|]; split_and!; vm_compute; reflexivity).
Qed.

Lemma toHex_cons b l :
  ∃ c1 c2,
    toHex (b :: l) = String c1 (String c2 (toHex l)) ∧
    pairs (toHex (b :: l))
      = String c1 (String c2 EmptyString) :: pairs (toHex l) ∧
    toUint8 (parseInt16 (String c1 (String c2 EmptyString))) = b.
Proof.
  destruct (byte_hex b) as (c1 & c2 & Hb & H1 & H2 & Hp).
  exists c1, c2.
  assert (He : toHex (b :: l) = String c1 (String c2 (toHex l))).
  { unfold toHex. cbn [map]. rewrite concat_empty_cons, Hb. reflexivity. }
  split_and!; [done| |done].
  rewrite He. cbn [pairs]. by rewrite H1, H2.
Qed.

Lemma pairs_toHex l :
  map (λ byte, toUint8 (parseInt16 byte)) (pairs (toHex l)) = l.
Proof.
  induction l as [|b l IH]; [reflexivity|].
  destruct (toHex_cons b l) as (c1 & c2 & _ & -> & Hp).
  cbn [map]. by rewrite Hp, IH.
Qed.

Lemma parseHex_toHex l : l ≠ [] → parseHex (toHex l) = Some l.
Proof.
  intros Hl. unfold parseHex, match_pairs.
  pose proof (pairs_toHex l) as Hm.
  destruct (pairs (toHex l)) as [|p ps] eqn:Hp.
  - cbn in Hm. congruence.
  - by rewrite <- Hm.
Qed.

(** *** The random source *)

Lemma getRandomValues_length n g : length (fst (getRandomValues n g)) = n.
Proof. unfold getRandomValues. cbn [fst]. by rewrite length_map, length_seq. Qed.

(** *** Encrypt, then decrypt *)

Section WithPlatform.

Context {P : Platform} {L : PlatformLaws P}.

Lemma encryptFileWithAES_unfold content g :
  let aesKey := fst (getRandomValues 32 g) in
  let g1 := snd (getRandomValues 32 g) in
  let ivBytes := fst (getRandomValues 16 g1) in
  fst (encryptFileWithAES content g) =
    Some {| encrypted := toHex (aes_cbc_encrypt aesKey ivBytes (contentBytes content));
            key := aesKey;
            iv := toHex ivBytes |}.
Proof.
  intros aesKey g1 ivBytes. unfold encryptFileWithAES.
  rewrite (surjective_pairing (getRandomValues 32 g)).
  fold aesKey g1. rewrite (surjective_pairing (getRandomValues 16 g1)).
  fold ivBytes.
  assert (Hk : length aesKey = 32%nat) by apply getRandomValues_length.
  assert (Hi : length ivBytes = 16%nat) by apply getRandomValues_length.
  unfold importKey, subtle_encrypt. rewrite Hk, Hi. reflexivity.
Qed.

(** C6. [encryptFileWithAES] always returns a result, and
    [decryptFileContent], given the ciphertext text and the key of that
    result together with the bytes its vector text stands for (read back the
    way the caller of [decryptFileContent] reads them), returns the bytes of
    the content: the byte sequence itself for binary content, and the
    encoder's bytes for text. *)
Theorem decrypt_after_encrypt content g :
  ∃ e ivBytes,
    fst (encryptFileWithAES content g) = Some e ∧
    parseHex (iv e) = Some ivBytes ∧
    length (key e) = 32%nat ∧
    length ivBytes = 16%nat ∧
    decryptFileContent (encrypted e) (key e) ivBytes
      = Some (contentBytes content) ∧
    ∀ b, content = Binary b →
         decryptFileContent (encrypted e) (key e) ivBytes = Some b.
Proof using L.
  pose proof (encryptFileWithAES_unfold content g) as He. cbn zeta in He.
  set (aesKey := fst (getRandomValues 32 g)) in *.
  set (ivBytes := fst (getRandomValues 16 (snd (getRandomValues 32 g)))) in *.
  assert (Hk : length aesKey = 32%nat) by apply getRandomValues_length.
  assert (Hi : length ivBytes = 16%nat) by apply getRandomValues_length.
  assert (Hdec : decryptFileContent
            (toHex (aes_cbc_encrypt aesKey ivBytes (contentBytes content)))
            aesKey ivBytes = Some (contentBytes content)).
  { unfold decryptFileContent, importKey, subtle_decrypt.
    rewrite Hk, Hi. cbn [Nat.eqb orb].
    rewrite parseHex_toHex by apply aes_cbc_encrypt_nonempty.
    by apply aes_cbc_decrypt_encrypt. }
  eexists _, ivBytes. split; [exact He|]. cbn [iv key encrypted].
  split_and!; [|done|done|done|].
  - apply parseHex_toHex. intros Hnil. by rewrite Hnil in Hi.
  - intros b ->. exact Hdec.
Qed.

End WithPlatform.

(** *** The chaining platform keeps the platform's promises *)

Import XorCbc.

Lemma xor_bits_cancel a b : xor_bits (xor_bits a b) b = a.
Proof.
  destruct a as (a0 & a1 & a2 & a3 & a4 & a5 & a6 & a7).
  destruct b as (b0 & b1 & b2 & b3 & b4 & b5 & b6 & b7).
  unfold xor_bits.
  by rewrite !xorb_assoc, !xorb_nilpotent, !xorb_false_r.
Qed.

Lemma xor_byte_cancel a b : xor_byte (xor_byte a b) b = a.
Proof.
  unfold xor_byte.
  by rewrite Byte.to_bits_of_bits, xor_bits_cancel, Byte.of_bits_to_bits.
Qed.

Lemma chain_decrypt_encrypt window keys data :
  chain_decrypt window keys (chain_encrypt window keys data) = data.
Proof.
  revert window keys.
  induction data as [|b rest IH]; intros window keys; [reflexivity|].
  cbn [chain_encrypt chain_decrypt].
  by rewrite IH, !xor_byte_cancel.
Qed.

Lemma padLength_bounds data : (1 ≤ padLength data ≤ 16)%nat.
Proof.
  unfold padLength.
  pose proof (Nat.mod_upper_bound (length data) 16). lia.
Qed.

Lemma padByte_value n : (n ≤ 16)%nat → N.to_nat (Byte.to_N (padByte n)) = n.
Proof.
  intros Hn. unfold padByte.
  destruct (Byte.of_N (N.of_nat n)) as [b|] eqn:Hb.
  - apply Byte.to_of_N in Hb. rewrite Hb. lia.
  - apply Byte.of_N_None_iff in Hb. lia.
Qed.

Lemma unpad_pad data : unpad (pad data) = Some data.
Proof.
  pose proof (padLength_bounds data) as Hn.
  unfold unpad, pad. set (n := padLength data) in *.
  assert (Hlast : last (data ++ repeat (padByte n) n) = Some (padByte n)).
  { destruct n as [|m]; [lia|].
    cbn [repeat]. rewrite repeat_cons, app_assoc. apply last_snoc. }
  rewrite Hlast, padByte_value by lia.
  rewrite length_app, repeat_length.
  destruct (Nat.leb_spec 1 n); [|lia].
  destruct (Nat.leb_spec n 16); [|lia].
  destruct (Nat.leb_spec n (length data + n)); [|lia].
  cbn [andb]. f_equal.
  replace (length data + n - n)%nat with (length data + 0)%nat by lia.
  by rewrite firstn_app_2, firstn_O, app_nil_r.
Qed.

Lemma chain_encrypt_nonempty window keys data :
  data ≠ [] → chain_encrypt window keys data ≠ [].
Proof. by destruct data. Qed.

Lemma pad_nonempty data : pad data ≠ [].
Proof.
  pose proof (padLength_bounds data) as Hn. unfold pad.
  destruct (padLength data); [lia|]. by destruct data.
Qed.

Lemma platform_laws : PlatformLaws platform.
Proof.
  split.
  - intros key iv data _ _. cbn [aes_cbc_decrypt aes_cbc_encrypt platform].
    by rewrite chain_decrypt_encrypt, unpad_pad.
  - intros key iv data. cbn [aes_cbc_encrypt platform].
    apply chain_encrypt_nonempty, pad_nonempty.
Qed.

(** C6 on the chaining platform: the two bytes of "hi" come back. *)
Lemma decrypt_after_encrypt_witness :
  PlatformLaws platform ∧
  ∃ e ivBytes,
    fst (encryptFileWithAES (P := platform) hi counting) = Some e ∧
    parseHex (iv e) = Some ivBytes ∧
    length (key e) = 32%nat ∧
    length ivBytes = 16%nat ∧
    decryptFileContent (P := platform) (encrypted e) (key e) ivBytes
      = Some (contentBytes (P := platform) hi) ∧
    ∀ b, hi = Binary b →
         decryptFileContent (P := platform) (encrypted e) (key e) ivBytes
           = Some b.
Proof.
  split; [exact platform_laws|].
  exact (decrypt_after_encrypt (L := platform_laws) hi counting).
Defined.

End CipherFacts.

(** ** Properties of the log, the grants and the sender index *)

Module JournalFacts.
Import Ledger Journal.

Ltac fields :=
  cbn [messages receivedMessages sentMessages messageCount acl events
       stored deleted init
       encryptedSender recipient contentCID encryptedKey timestamp isDeleted
       tx_env tx_call msg_sender block_timestamp fst snd].

Section WithRuntime.

Context {rt : Runtime}.

Lemma stored_lookup env r cid sender key s i :
  messages (stored env r cid sender key s) !!! i =
    if decide (messageCount s = i)
    then mkMessage sender r cid key (block_timestamp env) false
    else messages s !!! i.
Proof.
  fields. case_decide as Hi.
  - subst i. by rewrite lookup_total_insert_eq.
  - by rewrite lookup_total_insert_ne.
Qed.

Lemma deleted_lookup env j s i :
  messages (deleted env j s) !!! i =
    if decide (j = i)
    then mkMessage (encryptedSender (messages s !!! i))
                   (recipient (messages s !!! i))
                   (contentCID (messages s !!! i))
                   (encryptedKey (messages s !!! i))
                   (timestamp (messages s !!! i)) true
    else messages s !!! i.
Proof.
  fields. case_decide as Hi.
  - subst i. by rewrite lookup_total_insert_eq.
  - by rewrite lookup_total_insert_ne.
Qed.

Lemma deleted_same_fields env j s i :
  encryptedSender (messages (deleted env j s) !!! i)
    = encryptedSender (messages s !!! i) ∧
  recipient (messages (deleted env j s) !!! i) = recipient (messages s !!! i) ∧
  contentCID (messages (deleted env j s) !!! i) = contentCID (messages s !!! i) ∧
  encryptedKey (messages (deleted env j s) !!! i)
    = encryptedKey (messages s !!! i) ∧
  timestamp (messages (deleted env j s) !!! i) = timestamp (messages s !!! i).
Proof. rewrite deleted_lookup. by case_decide. Qed.

(** *** The sender index and the submission events *)

Lemma log_wf_init : log_wf init.
Proof.
  split; fields.
  - intros a. rewrite lookup_total_empty. constructor.
  - intros a i. rewrite lookup_total_empty. split.
    + by intros ?%elem_of_nil.
    + by intros (? & ? & ? & ?%elem_of_nil).
  - by intros i r a cid t ?%elem_of_nil.
  - unfold created; fields. lia.
  - by intros i x ?%elem_of_nil.
Qed.

Lemma effect_log_wf s tx o s' :
  effect s tx o s' → wf s → log_wf s → log_wf s'.
Proof.
  destruct 1 as [o _|r cid es sp ek kp sender key _ Hr Hlt|j _ Hr Hd];
    intros [Hc _ _] [Hnd Hidx Hfld Hall Hread]; [by split| |].
  - set (n := messageCount s) in *.
    assert (Hold : ∀ i r' a cid' t',
              MessageSent i r' a cid' t' ∈ events s → i < n).
    { intros i r' a cid' t' (Hi & _)%Hfld. unfold created in Hi. lia. }
    assert (Hfresh : ∀ a, n ∉ sentMessages s !!! a).
    { intros a (r' & cid' & t' & He)%Hidx. apply Hold in He. lia. }
    split.
    + intros a. fields. destruct (decide (msg_sender (tx_env tx) = a)) as [<- | Hne].
      * rewrite lookup_total_insert_eq. apply NoDup_app.
        split_and!; [apply Hnd| |apply NoDup_singleton].
        intros i Hi ->%list_elem_of_singleton. by apply (Hfresh _ Hi).
      * rewrite lookup_total_insert_ne by done. apply Hnd.
    + intros a i. fields.
      setoid_rewrite elem_of_app. setoid_rewrite list_elem_of_singleton.
      destruct (decide (msg_sender (tx_env tx) = a)) as [<- | Hne].
      * rewrite lookup_total_insert_eq, elem_of_app, list_elem_of_singleton, Hidx.
        split.
        -- intros [(r' & cid' & t' & He) | ->]; [by exists r', cid', t'; left|].
           exists r, cid, (block_timestamp (tx_env tx)). by right.
        -- intros (r' & cid' & t' & [He | He]); [left; eauto|right; congruence].
      * rewrite lookup_total_insert_ne by done. rewrite Hidx.
        split.
        -- intros (r' & cid' & t' & He). exists r', cid', t'. by left.
        -- intros (r' & cid' & t' & [He | He]); [eauto|congruence].
    + intros i r' a cid' t'. rewrite stored_lookup.
      unfold created; fields. rewrite elem_of_app, list_elem_of_singleton.
      intros [He | He].
      * pose proof (Hold _ _ _ _ _ He). apply Hfld in He as ((? & ?) & ? & ? & ?).
        rewrite decide_False by (fold n; lia). split_and!; [lia..|done|done|done].
      * simplify_eq. rewrite decide_True by done.
        fields. split_and!; [lia|lia|done..].
    + intros i. unfold created; fields. intros Hi.
      setoid_rewrite elem_of_app. setoid_rewrite list_elem_of_singleton.
      destruct (decide (i = n)) as [-> | Hne].
      * exists r, (msg_sender (tx_env tx)), cid, (block_timestamp (tx_env tx)).
        by right.
      * destruct (Hall i) as (r' & a & cid' & t' & He);
          [unfold created; fold n; lia|].
        exists r', a, cid', t'. by left.
    + intros i x. fields. rewrite elem_of_app, list_elem_of_singleton.
      intros [He | He]; [by apply (Hread i x)|done].
  - pose proof (deleted_same_fields (tx_env tx) j s) as Hsame.
    split.
    + intros a. fields. apply Hnd.
    + intros a i. fields. rewrite Hidx.
      setoid_rewrite elem_of_app. setoid_rewrite list_elem_of_singleton.
      split.
      * intros (r' & cid' & t' & He). exists r', cid', t'. by left.
      * intros (r' & cid' & t' & [He | He]); [eauto|done].
    + intros i r' a cid' t'.
      destruct (Hsame i) as (_ & -> & -> & _ & ->).
      cbn [events deleted]. rewrite elem_of_app, list_elem_of_singleton.
      intros [He | He]; [|done]. apply Hfld in He. exact He.
    + intros i Hi. destruct (Hall i Hi) as (r' & a & cid' & t' & He).
      exists r', a, cid', t'. cbn [events deleted]. apply elem_of_app. by left.
    + intros i x. cbn [events deleted]. rewrite elem_of_app, list_elem_of_singleton.
      intros [He | He]; [by apply (Hread i x)|done].
Qed.

Lemma reachable_log_wf P s : reachable P s → log_wf s.
Proof.
  induction 1 as [|s tx Hr IH _]; [apply log_wf_init|].
  eapply effect_log_wf; [apply LedgerFacts.transact_effect| |done].
  by eapply LedgerFacts.reachable_wf.
Qed.

Lemma run_reachable P s txs :
  reachable P s → Forall P txs → reachable P (run s txs).
Proof.
  intros Hs Htxs. revert s Hs.
  induction Htxs as [|tx txs Htx _ IH]; intros s Hs; [done|].
  cbn [run]. apply IH. by constructor.
Qed.

Lemma effect_sent s tx o s' a :
  effect s tx o s' →
  sentMessages s !!! a `prefix_of` sentMessages s' !!! a.
Proof.
  destruct 1 as [o _|r cid es sp ek kp sender key _ _ _|j _ _ _]; fields;
    [done| |done].
  destruct (decide (msg_sender (tx_env tx) = a)) as [<- | Hne].
  - rewrite lookup_total_insert_eq. by apply prefix_app_r.
  - by rewrite lookup_total_insert_ne.
Qed.

Lemma run_sent s txs a :
  sentMessages s !!! a `prefix_of` sentMessages (run s txs) !!! a.
Proof.
  revert s. induction txs as [|tx txs IH]; intros s; cbn [run]; [done|].
  etrans; [|apply IH]. eapply effect_sent, LedgerFacts.transact_effect.
Qed.

(** X1. The sender index.  A successful [sendMessage] makes the list
    [getMySentMessages] gives its signer the list it was before followed by
    the new id, whoever the recipient is.  Over any sequence of transactions
    the sent list of every address only grows at its end.  In storage
    reached from deployment a sent list has no repetition and holds created
    ids only. *)
Theorem sent_index_append_only :
  (∀ env r cid es sp ek kp s id s',
     transact s (mkTx env (CallSendMessage r cid es sp ek kp))
       = (Ok (VUint id), s') →
     fst (getMySentMessages env s') =
       Ok (sentMessages s !!! msg_sender env ++ [id])) ∧
  (∀ s txs a, sentMessages s !!! a `prefix_of`
                sentMessages (run s txs) !!! a) ∧
  (∀ P s a, reachable P s →
     NoDup (sentMessages s !!! a) ∧
     ∀ i, i ∈ sentMessages s !!! a → created s i).
Proof.
  split_and!.
  - intros env r cid es sp ek kp s id s'
      (sender & key & _ & _ & _ & _ & _ & Hid & ->)%LedgerFacts.transact_send_Ok.
    simplify_eq. unfold getMySentMessages, gets. fields.
    by rewrite lookup_total_insert_eq.
  - apply run_sent.
  - intros P s a [Hnd Hidx Hfld _ _]%reachable_log_wf. split; [apply Hnd|].
    intros i (r & cid & t & He)%Hidx. by apply Hfld in He as (? & _).
Qed.

(** X2. The log against storage.  In storage reached from deployment, a
    [MessageSent] event names a created message and carries the recipient,
    locator and timestamp stored for it; its sender is the address whose
    sent list holds the id, and its recipient the address whose received
    list holds it; every created message has such an event; and no
    [MessageRead] event is ever logged. *)
Theorem log_matches_storage P s :
  reachable P s →
  (∀ i r a cid t,
     MessageSent i r a cid t ∈ events s →
     created s i ∧
     recipient (messages s !!! i) = r ∧
     contentCID (messages s !!! i) = cid ∧
     timestamp (messages s !!! i) = t ∧
     i ∈ sentMessages s !!! a ∧
     i ∈ receivedMessages s !!! r) ∧
  (∀ i, created s i →
     ∃ a, MessageSent i (recipient (messages s !!! i)) a
            (contentCID (messages s !!! i))
            (timestamp (messages s !!! i)) ∈ events s) ∧
  (∀ i x, MessageRead i x ∉ events s).
Proof.
  intros Hs. pose proof (reachable_log_wf P s Hs) as [_ Hidx Hfld Hall Hread].
  pose proof (LedgerFacts.reachable_wf P s Hs) as [_ _ Hrecv].
  split_and!; [| |done].
  - intros i r a cid t He.
    destruct (Hfld _ _ _ _ _ He) as (Hi & Hr & Hc & Ht).
    split_and!; try done.
    + apply Hidx. eauto.
    + by apply Hrecv.
  - intros i Hi. destruct (Hall i Hi) as (r & a & cid & t & He).
    destruct (Hfld _ _ _ _ _ He) as (_ & <- & <- & <-). by exists a.
Qed.

(** *** The deletion events *)

Lemma elem_of_deletions l i :
  i ∈ deletions l ↔ ∃ d, MessageDeleted i d ∈ l.
Proof.
  unfold deletions. rewrite list_elem_of_omap. split.
  - intros ([] & He & Hf); cbn in Hf; simplify_eq. eauto.
  - intros (d & He). by exists (MessageDeleted i d).
Qed.

Lemma deletion_wf_init : deletion_wf init.
Proof.
  split; fields.
  - intros i d. unfold created; fields. split; [by intros ?%elem_of_nil|lia].
  - constructor.
Qed.

Lemma effect_deletion_wf s tx o s' :
  signed tx → effect s tx o s' → wf s → blank_outside s →
  deletion_wf s → deletion_wf s'.
Proof.
  intros Hsig He [Hc _ _] Hb [Hlog Honce].
  destruct He as [o _|r cid es sp ek kp sender key _ Hr Hlt|j _ Hr Hd];
    [by split| |].
  - split.
    + intros i d. rewrite stored_lookup. unfold created; fields.
      rewrite elem_of_app, list_elem_of_singleton, Hlog. unfold created.
      case_decide as Hi.
      * subst i. fields. split; [intros [? | ?]; [lia|done]|by intros (_ & ? & _)].
      * split; [intros [(? & ? & ?) | ?]; [|done]|intros (? & ? & ?); left];
          repeat split; (lia || done).
    + fields. unfold deletions. rewrite omap_app. cbn. by rewrite app_nil_r.
  - assert (Hj : created s j).
    { destruct (decide (created s j)) as [|Hn]; [done|].
      exfalso. apply Hsig. rewrite <- Hr, (Hb j Hn). reflexivity. }
    split.
    + intros i d. rewrite deleted_lookup. unfold created; fields.
      rewrite elem_of_app, list_elem_of_singleton, Hlog. unfold created.
      case_decide as Hi.
      * subst i. fields. split.
        -- intros [(_ & ? & _) | Heq]; [congruence|]. injection Heq as ->.
           unfold created in Hj. repeat split; (lia || done).
        -- intros (_ & _ & <-). right. by rewrite Hr.
      * split; [intros [? | ?]; [done|congruence]|by left].
    + fields. unfold deletions. rewrite omap_app. cbn.
      apply NoDup_app. split_and!; [done| |apply NoDup_singleton].
      intros i (d & Hi)%elem_of_deletions ->%list_elem_of_singleton.
      apply Hlog in Hi as (_ & ? & _). congruence.
Qed.

Lemma reachable_deletion_wf s : reachable signed s → deletion_wf s.
Proof.
  intros Hs. induction Hs as [|s tx Hr IH Hsig]; [apply deletion_wf_init|].
  eapply effect_deletion_wf; [done|apply LedgerFacts.transact_effect| | |done].
  - by eapply LedgerFacts.reachable_wf.
  - by apply LedgerFacts.reachable_blank_outside.
Qed.

(** X3. The deletion events.  In storage reached from deployment through
    signed transactions, the log holds a [MessageDeleted] event for an id
    and a deleter exactly when that message is created, is marked deleted
    and has the deleter as its recipient; and no id is logged as deleted
    twice. *)
Theorem deletions_logged_once s :
  reachable signed s →
  (∀ i d, MessageDeleted i d ∈ events s ↔
          created s i ∧ isDeleted (messages s !!! i) = true ∧
          recipient (messages s !!! i) = d) ∧
  NoDup (deletions (events s)).
Proof. by intros [? ?]%reachable_deletion_wf. Qed.

(** *** The grants *)

Lemma acl_wf_init : acl_wf init.
Proof.
  split; fields.
  - by intros h a ?%elem_of_nil.
  - unfold created; fields. lia.
Qed.

Lemma effect_acl_wf s tx o s' :
  effect s tx o s' → wf s → acl_wf s → acl_wf s'.
Proof.
  destruct 1 as [o _|r cid es sp ek kp sender key _ Hr Hlt|j _ Hr Hd];
    intros [Hc _ _] [Hsound Hcomplete]; [by split| |].
  - split.
    + intros h a. cbn [acl stored].
      rewrite !elem_of_app, !list_elem_of_singleton. intros Hin.
      destruct Hin as [Hin | Hnew].
      * destruct (Hsound h a Hin) as (i & Hi & Ha & Hh).
        exists i. unfold created in *. rewrite stored_lookup.
        rewrite decide_False by lia. fields. split_and!; [lia|lia|done|done].
      * exists (messageCount s). unfold created. rewrite stored_lookup.
        rewrite decide_True by done. fields.
        split; [lia|].
        destruct Hnew as [? | [? | [? | ?]]]; simplify_eq; auto.
    + intros i. unfold created. rewrite stored_lookup. fields. intros Hi.
      rewrite !elem_of_app, !list_elem_of_singleton.
      case_decide as Hn.
      * fields. split_and!; right; auto.
      * destruct (Hcomplete i) as (? & ? & ? & ?); [unfold created; lia|].
        by split_and!; left.
  - pose proof (deleted_same_fields (tx_env tx) j s) as Hsame.
    split.
    + intros h a Hin. cbn [acl deleted] in Hin.
      destruct (Hsound h a Hin) as (i & Hi & Ha & Hh).
      exists i. destruct (Hsame i) as (-> & -> & _ & -> & _). by split_and!.
    + intros i Hi. destruct (Hsame i) as (-> & -> & _ & -> & _).
      cbn [acl deleted]. by apply Hcomplete.
Qed.

Lemma reachable_acl_wf P s : reachable P s → acl_wf s.
Proof.
  induction 1 as [|s tx Hr IH _]; [apply acl_wf_init|].
  eapply effect_acl_wf; [apply LedgerFacts.transact_effect| |done].
  by eapply LedgerFacts.reachable_wf.
Qed.

(** X4. The grants.  In storage reached from deployment every grant is on
    the protected sender or the protected key of a created message and goes
    to that message's recipient or to the contract itself, so the signer of
    a submission gets none unless they are the recipient; and each created
    message has all four of its grants, also after it is deleted. *)
Theorem grants_only_to_recipient P s :
  reachable P s →
  (∀ h a, (h, a) ∈ acl s →
     ∃ i, created s i ∧
          (a = recipient (messages s !!! i) ∨ a = this) ∧
          (h = encryptedSender (messages s !!! i) ∨
           h = encryptedKey (messages s !!! i))) ∧
  (∀ i, created s i →
     (encryptedSender (messages s !!! i), recipient (messages s !!! i)) ∈ acl s ∧
     (encryptedKey (messages s !!! i), recipient (messages s !!! i)) ∈ acl s ∧
     (encryptedSender (messages s !!! i), this) ∈ acl s ∧
     (encryptedKey (messages s !!! i), this) ∈ acl s).
Proof. by intros [? ?]%reachable_acl_wf. Qed.

(** *** Soft deletion *)

Lemma transact_delete_Ok env i s v s' :
  transact s (mkTx env (CallDeleteMessage i)) = (Ok v, s') →
  recipient (messages s !!! i) = msg_sender env ∧
  isDeleted (messages s !!! i) = false ∧
  s' = deleted env i s.
Proof.
  rewrite LedgerFacts.transact_delete. intros H.
  destruct (Z.eqb_spec (recipient (messages s !!! i)) (msg_sender env)); [|done].
  destruct (isDeleted (messages s !!! i)); [done|].
  by simplify_eq.
Qed.

(** X5. Deletion is soft.  A successful [deleteMessage] changes the
    [isDeleted] flag of its message and adds one event, nothing else: the
    counter, both indices and the grants are as before, every other
    message is untouched, and [getMessageMetadata] still returns the
    recipient, locator and timestamp of the deleted message, now with
    [isDeleted = true], to any caller. *)
Theorem deleteMessage_is_soft env i s v s' env' :
  transact s (mkTx env (CallDeleteMessage i)) = (Ok v, s') →
  messageCount s' = messageCount s ∧
  receivedMessages s' = receivedMessages s ∧
  sentMessages s' = sentMessages s ∧
  acl s' = acl s ∧
  events s' = events s ++ [MessageDeleted i (msg_sender env)] ∧
  (∀ j, j ≠ i → messages s' !!! j = messages s !!! j) ∧
  getMessageMetadata env' i s' =
    (Ok (recipient (messages s !!! i), contentCID (messages s !!! i),
         timestamp (messages s !!! i), true), s').
Proof.
  intros (_ & _ & ->)%transact_delete_Ok.
  split_and!; try reflexivity.
  - intros j Hj. rewrite deleted_lookup. by rewrite decide_False.
  - unfold getMessageMetadata, bind, gets, ret.
    rewrite deleted_lookup, decide_True by done. reflexivity.
Qed.

(** *** The public getter *)

(** X6. The handles stay readable.  After a successful [sendMessage], and
    whatever transactions follow, the getter [messages(id)] gives any
    caller the protected sender and protected key handles the runtime
    returned for the submission, with the recipient, locator and timestamp
    submitted: neither [getMessage]'s recipient check nor a deletion hides
    them. *)
Theorem handles_stay_public env r cid es sp ek kp s id s' txs env' :
  transact s (mkTx env (CallSendMessage r cid es sp ek kp)) = (Ok (VUint id), s') →
  ∃ sender key,
    fromExternal_eaddress env es sp = Some sender ∧
    fromExternal_euint256 env ek kp = Some key ∧
    fst (get_messages env' id (run s' txs)) =
      Ok (sender, r, cid, key, block_timestamp env,
          isDeleted (messages (run s' txs) !!! id)).
Proof.
  intros (sender & key & _ & _ & Hs & Hk & _ & Hid & ->)%LedgerFacts.transact_send_Ok.
  simplify_eq. exists sender, key. split_and!; [done..|].
  pose proof (LedgerFacts.run_frozen (stored env r cid sender key s) txs
                (messageCount s)) as Hf.
  destruct Hf as (H1 & H2 & H3 & H4 & H5 & _); [fields; lia|].
  rewrite stored_lookup, decide_True in H1, H2, H3, H4, H5 by done.
  cbn [encryptedSender recipient contentCID encryptedKey timestamp]
    in H1, H2, H3, H4, H5.
  unfold get_messages, bind, gets, ret. cbn [fst].
  by rewrite H1, H2, H3, H4, H5.
Qed.

(** *** [isRecipient], the caller's own list and [getMessage] *)

(** X7. For a created message in storage reached from deployment,
    [isRecipient] answers [true] exactly to the caller whose
    [getMyReceivedMessages] list holds the id; that list is what
    [getReceivedMessagesOf] returns for the caller's address; and
    [getMessage] succeeds for a caller exactly when [isRecipient] answers
    [true] and the metadata says the message is not deleted. *)
Theorem isRecipient_matches_index P s env i :
  reachable P s → created s i →
  (fst (isRecipient env i s) = Ok true ↔
     ∃ l, fst (getMyReceivedMessages env s) = Ok l ∧ i ∈ l) ∧
  (∀ env', getMyReceivedMessages env s
           = getReceivedMessagesOf env' (msg_sender env) s) ∧
  (is_ok (fst (getMessage env i s)) = true ↔
     fst (isRecipient env i s) = Ok true ∧
     ∃ r cid t, fst (getMessageMetadata env i s) = Ok (r, cid, t, false)).
Proof.
  intros [_ _ Hidx]%LedgerFacts.reachable_wf Hi.
  unfold isRecipient, getMyReceivedMessages, getReceivedMessagesOf,
    getMessageMetadata, bind, gets, ret. cbn [fst].
  rewrite LedgerFacts.getMessage_unfold. cbn zeta. cbn [fst].
  split_and!; [|done|].
  - split.
    + intros [= He%Z.eqb_eq]. eexists; split; [done|]. by apply Hidx.
    + intros (l & [= <-] & [_ He]%Hidx). by rewrite He, Z.eqb_refl.
  - destruct (isDeleted (messages s !!! i)) eqn:Hd;
      destruct (recipient (messages s !!! i) =? msg_sender env) eqn:Hr; cbn;
      split; try done.
    + by intros (_ & ? & ? & ? & [=]).
    + by intros ([=] & _).
    + intros _. split; [done|]. eauto.
    + by intros ([=] & _).
Qed.

(** *** Timestamps *)

Lemma effect_stamped s tx o s' t :
  effect s tx o s' → wf s →
  t ≤ block_timestamp (tx_env tx) →
  stamped_before t s → time_monotone s →
  stamped_before (block_timestamp (tx_env tx)) s' ∧ time_monotone s'.
Proof.
  destruct 1 as [o _|r cid es sp ek kp sender key _ Hr Hlt|j _ Hr Hd];
    intros [Hc _ _] Ht Hsb Hm.
  - split; [|done]. intros i Hi. specialize (Hsb i Hi). lia.
  - split.
    + intros i. unfold created. rewrite stored_lookup. fields. intros Hi.
      case_decide; [fields; lia|].
      specialize (Hsb i). unfold created in Hsb. lia.
    + intros i j Hi Hij. rewrite !stored_lookup. fields. intros Hj.
      repeat case_decide; fields; try lia.
      * specialize (Hsb i). unfold created in Hsb. lia.
      * apply Hm; lia.
  - pose proof (deleted_same_fields (tx_env tx) j s) as Hsame.
    split.
    + intros i Hi. destruct (Hsame i) as (_ & _ & _ & _ & ->).
      specialize (Hsb i Hi). lia.
    + intros i k Hi Hik Hk.
      destruct (Hsame i) as (_ & _ & _ & _ & ->).
      destruct (Hsame k) as (_ & _ & _ & _ & ->).
      by apply Hm.
Qed.

Lemma run_stamped s txs t :
  reachable (λ _, True) s → time_ordered t txs →
  stamped_before t s → time_monotone s →
  time_monotone (run s txs).
Proof.
  revert s t. induction txs as [|tx txs IH]; intros s t Hs Hord Hsb Hm; [done|].
  destruct Hord as [Ht Hord]. cbn [run].
  destruct (effect_stamped s tx _ _ t (LedgerFacts.transact_effect s tx))
    as [Hsb' Hm']; [by eapply LedgerFacts.reachable_wf|done..|].
  eapply IH; [by constructor|done..].
Qed.

(** X8. When the block timestamps of a sequence of transactions never go
    back, the timestamps stored for the created messages do not decrease
    with the id. *)
Theorem timestamps_follow_ids t txs i j :
  time_ordered t txs →
  0 ≤ i → i ≤ j → j < messageCount (run init txs) →
  timestamp (messages (run init txs) !!! i)
    ≤ timestamp (messages (run init txs) !!! j).
Proof.
  intros Hord. apply (run_stamped init txs t); [constructor|done| |].
  - intros k Hk. unfold created in Hk. cbn [messageCount init] in Hk. lia.
  - intros k l Hk Hkl Hl. cbn [messageCount init] in Hl. lia.
Qed.

(** *** When a submission succeeds *)

(** X9. [sendMessage] succeeds exactly when the recipient is not the zero
    address, the locator is not empty, the runtime accepts both proofs and
    the counter is below [2^256 - 1]; it then returns the counter.  With
    everything else in order and the counter at [2^256 - 1] the call fails
    with the arithmetic panic and storage is left as it was. *)
Theorem sendMessage_succeeds_iff env r cid es sp ek kp s :
  (is_ok (fst (transact s (mkTx env (CallSendMessage r cid es sp ek kp)))) = true ↔
     r ≠ zero_address ∧ cid ≠ EmptyString ∧
     is_Some (fromExternal_eaddress env es sp) ∧
     is_Some (fromExternal_euint256 env ek kp) ∧
     messageCount s < max_uint256) ∧
  (is_ok (fst (transact s (mkTx env (CallSendMessage r cid es sp ek kp)))) = true →
     fst (transact s (mkTx env (CallSendMessage r cid es sp ek kp)))
       = Ok (VUint (messageCount s))) ∧
  (r ≠ zero_address → cid ≠ EmptyString →
   is_Some (fromExternal_eaddress env es sp) →
   is_Some (fromExternal_euint256 env ek kp) →
   messageCount s = max_uint256 →
   transact s (mkTx env (CallSendMessage r cid es sp ek kp))
     = (Fail (Panic 17), s)).
Proof.
  rewrite LedgerFacts.transact_send.
  destruct (Z.eqb_spec r zero_address) as [Hr | Hr].
  { cbn. split_and!; [|done|done]. split; [done|]. by intros (? & _). }
  destruct cid as [|c cid].
  { cbn. split_and!; [|done|done]. split; [done|]. by intros (_ & ? & _). }
  cbn [String.length Nat.ltb Nat.leb].
  destruct (fromExternal_eaddress env es sp) as [sender|].
  2:{ cbn. split_and!; [|done|]. split; [done|]. by intros (_ & _ & [? [=]] & _).
      by intros _ _ [? [=]]. }
  destruct (fromExternal_euint256 env ek kp) as [key|].
  2:{ cbn. split_and!; [|done|]. split; [done|]. by intros (_ & _ & _ & [? [=]] & _).
      by intros _ _ _ [? [=]]. }
  destruct (Z.ltb_spec (messageCount s) max_uint256) as [Hlt | Hge]; cbn [fst is_ok].
  - split_and!; [|done|intros; lia]. split; [|done]. intros _. by split_and!.
  - split_and!; [|done|done]. split; [done|]. intros (_ & _ & _ & _ & ?). lia.
Qed.

End WithRuntime.

(** *** Worked scenarios *)

Import Scenario.

Lemma after_three_reachable : reachable (rt := permissive) signed after_three.
Proof.
  apply run_reachable; [apply reachable_init|].
  unfold three_steps. repeat constructor; unfold signed; cbn; done.
Qed.

Lemma bob_deletes :
  transact (rt := permissive) sent_one (delete bob 0 1001)
    = (Ok VUnit, sent_and_deleted).
Proof.
  unfold sent_and_deleted, sent_one. cbn [run]. apply surjective_pairing.
Qed.

Lemma sent_index_append_only_witness :
  transact (rt := permissive) init (send alice bob "locX" 1000)
    = (Ok (VUint 0), sent_one) ∧
  fst (getMySentMessages (at_time alice 1000) sent_one)
    = Ok (sentMessages init !!! msg_sender (at_time alice 1000) ++ [0]) ∧
  reachable (rt := permissive) signed after_three ∧
  NoDup (sentMessages after_three !!! alice).
Proof.
  destruct (sent_index_append_only (rt := permissive))
    as (Happend & _ & Honce).
  split_and!.
  - exact LedgerFacts.init_sends.
  - exact (Happend _ _ _ _ _ _ _ _ _ _ LedgerFacts.init_sends).
  - exact after_three_reachable.
  - exact (proj1 (Honce signed after_three alice after_three_reachable)).
Defined.

Lemma log_matches_storage_witness :
  reachable (rt := permissive) signed after_three ∧
  (∃ a, MessageSent 1 (recipient (messages after_three !!! 1)) a
          (contentCID (messages after_three !!! 1))
          (timestamp (messages after_three !!! 1)) ∈ events after_three) ∧
  (∀ i x, MessageRead i x ∉ events after_three).
Proof.
  destruct (log_matches_storage (rt := permissive) signed after_three
              after_three_reachable) as (_ & Hall & Hread).
  split_and!.
  - exact after_three_reachable.
  - apply Hall. vm_compute. split; [discriminate|reflexivity].
  - exact Hread.
Defined.

Lemma deletions_logged_once_witness :
  reachable (rt := permissive) signed after_three ∧
  (∀ i d, MessageDeleted i d ∈ events after_three ↔
          created after_three i ∧
          isDeleted (messages after_three !!! i) = true ∧
          recipient (messages after_three !!! i) = d) ∧
  NoDup (deletions (events after_three)).
Proof.
  split; [exact after_three_reachable|].
  exact (deletions_logged_once (rt := permissive) after_three
           after_three_reachable).
Defined.

Lemma grants_only_to_recipient_witness :
  reachable (rt := permissive) signed after_three ∧
  (∀ h a, (h, a) ∈ acl after_three →
     ∃ i, created after_three i ∧
          (a = recipient (messages after_three !!! i)
           ∨ a = this (Runtime := permissive)) ∧
          (h = encryptedSender (messages after_three !!! i) ∨
           h = encryptedKey (messages after_three !!! i))).
Proof.
  split; [exact after_three_reachable|].
  exact (proj1 (grants_only_to_recipient (rt := permissive) signed after_three
                  after_three_reachable)).
Defined.

Lemma deleteMessage_is_soft_witness :
  transact (rt := permissive) sent_one (delete bob 0 1001)
    = (Ok VUnit, sent_and_deleted) ∧
  messageCount sent_and_deleted = messageCount sent_one ∧
  receivedMessages sent_and_deleted = receivedMessages sent_one ∧
  getMessageMetadata (at_time carol 1002) 0 sent_and_deleted =
    (Ok (recipient (messages sent_one !!! 0), contentCID (messages sent_one !!! 0),
         timestamp (messages sent_one !!! 0), true), sent_and_deleted).
Proof.
  destruct (deleteMessage_is_soft (rt := permissive) _ _ _ _ _
              (at_time carol 1002) bob_deletes)
    as (Hc & Hr & _ & _ & _ & _ & Hm).
  split_and!; [exact bob_deletes|exact Hc|exact Hr|exact Hm].
Defined.

Lemma handles_stay_public_witness :
  transact (rt := permissive) init (send alice bob "locX" 1000)
    = (Ok (VUint 0), sent_one) ∧
  ∃ sender key,
    fromExternal_eaddress (Runtime := permissive) (at_time alice 1000) 501 []
      = Some sender ∧
    fromExternal_euint256 (Runtime := permissive) (at_time alice 1000) 502 []
      = Some key ∧
    fst (get_messages (at_time carol 1003) 0
           (run (rt := permissive) sent_one [delete bob 0 1001])) =
      Ok (sender, bob, "locX"%string, key, block_timestamp (at_time alice 1000),
          isDeleted (messages (run (rt := permissive) sent_one
                                 [delete bob 0 1001]) !!! 0)).
Proof.
  split; [exact LedgerFacts.init_sends|].
  exact (handles_stay_public (rt := permissive) _ _ _ _ _ _ _ _ _ _
           [delete bob 0 1001] (at_time carol 1003) LedgerFacts.init_sends).
Defined.

Lemma isRecipient_matches_index_witness :
  reachable (rt := permissive) signed after_three ∧
  created after_three 1 ∧
  (fst (isRecipient (at_time alice 1003) 1 after_three) = Ok true ↔
     ∃ l, fst (getMyReceivedMessages (at_time alice 1003) after_three) = Ok l
          ∧ 1 ∈ l).
Proof.
  assert (Hc : created after_three 1)
    by (vm_compute; split; [discriminate|reflexivity]).
  split_and!; [exact after_three_reachable|exact Hc|].
  exact (proj1 (isRecipient_matches_index (rt := permissive) signed after_three
                  (at_time alice 1003) 1 after_three_reachable Hc)).
Defined.

Lemma timestamps_follow_ids_witness :
  time_ordered 0 three_steps ∧
  0 ≤ 0 ∧ 0 ≤ 1 ∧ 1 < messageCount (run (rt := permissive) init three_steps) ∧
  timestamp (messages (run (rt := permissive) init three_steps) !!! 0)
    ≤ timestamp (messages (run (rt := permissive) init three_steps) !!! 1).
Proof.
  assert (Ho : time_ordered 0 three_steps) by (cbn; lia).
  assert (H1 : 1 < messageCount (run (rt := permissive) init three_steps))
    by (vm_compute; reflexivity).
  split_and!; [exact Ho|lia|lia|exact H1|].
  exact (timestamps_follow_ids (rt := permissive) 0 three_steps 0 1 Ho
           ltac:(lia) ltac:(lia) H1).
Defined.

Lemma sendMessage_succeeds_iff_witness :
  bob ≠ zero_address ∧ "locX"%string ≠ EmptyString ∧
  messageCount brimful = max_uint256 ∧
  transact (rt := permissive) brimful (send alice bob "locX" 1000)
    = (Fail (Panic 17), brimful).
Proof.
  assert (H1 : bob ≠ zero_address) by (vm_compute; discriminate).
  assert (H2 : "locX"%string ≠ EmptyString) by discriminate.
  assert (H3 : messageCount brimful = max_uint256) by reflexivity.
  split_and!; [exact H1|exact H2|exact H3|].
  destruct (sendMessage_succeeds_iff (rt := permissive) (at_time alice 1000)
              bob "locX" 501 [] 502 [] brimful) as (_ & _ & Hfull).
  exact (Hfull H1 H2 (mk_is_Some _ _ eq_refl) (mk_is_Some _ _ eq_refl) H3).
Defined.

End JournalFacts.

(** ** Properties of the hexadecimal transport *)

Module TransportFacts.
Import Cipher Transport.

Local Open Scope N_scope.

Ltac nlia := zify; Z.to_euclidean_division_equations; lia.

(** *** Strings *)

Lemma append_cons c s t :
  String.append (String c s) t = String c (String.append s t).
Proof. reflexivity. Qed.

Lemma append_assoc s t u :
  String.append (String.append s t) u = String.append s (String.append t u).
Proof.
  induction s as [|c s IH]; [reflexivity|].
  by rewrite !append_cons, IH.
Qed.

Lemma length_append s t :
  String.length (String.append s t) = (String.length s + String.length t)%nat.
Proof.
  induction s as [|c s IH]; [reflexivity|].
  rewrite append_cons. cbn [String.length]. by rewrite IH.
Qed.

Lemma string_forall_append p s t :
  string_forall p (String.append s t) = string_forall p s && string_forall p t.
Proof.
  induction s as [|c s IH]; [reflexivity|].
  rewrite append_cons. cbn [string_forall]. by rewrite IH, andb_assoc.
Qed.

Lemma padStart_zeros target s :
  padStart target "0"%char s = String.append (zeros (target - String.length s)) s.
Proof. reflexivity. Qed.

(** *** Hexadecimal digits *)

Lemma get_beyond k :
  (16 ≤ k)%nat → String.get k "0123456789abcdef" = None.
Proof.
  intros Hk. do 16 (destruct k as [|k]; [lia|]). reflexivity.
Qed.

Lemma below_16 (Q : N → Prop) :
  Q 0 → Q 1 → Q 2 → Q 3 → Q 4 → Q 5 → Q 6 → Q 7 → Q 8 → Q 9 → Q 10 → Q 11 →
  Q 12 → Q 13 → Q 14 → Q 15 → ∀ d, d < 16 → Q d.
Proof.
  intros. destruct d as [|p]; [done|].
  do 4 (destruct p as [p|p|]; try done); lia.
Qed.

Lemma hexDigit_value d :
  d < 16 → digitOf 16 (hexDigit d) = Some (Z.of_N d).
Proof. revert d. apply below_16; reflexivity. Qed.

Lemma hexDigit_isHexDigit d : isHexDigit (hexDigit d) = true.
Proof.
  destruct (N.ltb_spec d 16) as [Hd | Hd].
  - revert d Hd. apply below_16; reflexivity.
  - unfold hexDigit. rewrite get_beyond by lia. reflexivity.
Qed.

Lemma isHexDigit_plain c :
  isHexDigit c = true →
  isWhiteSpace c = false ∧ isLineTerminator c = false ∧ c ≠ "x"%char.
Proof.
  destruct c as [[] [] [] [] [] [] [] []]; vm_compute; intros H;
    (discriminate H || (split_and!; [reflexivity..|discriminate])).
Qed.

Lemma byte_hex_split b :
  padStart 2 "0"%char (toString16 (Byte.to_N b)) =
    String (hexDigit (Byte.to_N b / 16))
           (String (hexDigit (Byte.to_N b mod 16)) EmptyString) ∧
  Byte.to_N b < 256.
Proof. destruct b; split; vm_compute; reflexivity. Qed.

(** *** [toHex] as a fixed-width numeral *)

Lemma toHex_app l1 l2 :
  toHex (l1 ++ l2) = String.append (toHex l1) (toHex l2).
Proof.
  induction l1 as [|b l1 IH]; [reflexivity|].
  unfold toHex in *. cbn [map app].
  by rewrite !CipherFacts.concat_empty_cons, IH, append_assoc.
Qed.

Lemma toHex_singleton b :
  toHex [b] = String (hexDigit (Byte.to_N b / 16))
                     (String (hexDigit (Byte.to_N b mod 16)) EmptyString).
Proof. exact (proj1 (byte_hex_split b)). Qed.

Lemma be_value_snoc l b : be_value (l ++ [b]) = 256 * be_value l + Byte.to_N b.
Proof. unfold be_value. by rewrite fold_left_app. Qed.

Lemma be_value_bound l : be_value l < 256 ^ N.of_nat (length l).
Proof.
  induction l as [|b l IH] using rev_ind; [reflexivity|].
  rewrite be_value_snoc, length_app. cbn [length].
  replace (N.of_nat (length l + 1)) with (N.succ (N.of_nat (length l))) by lia.
  rewrite N.pow_succ_r'. pose proof (proj2 (byte_hex_split b)). lia.
Qed.

Lemma hexOfWidth_be l : hexOfWidth (2 * length l) (be_value l) = toHex l.
Proof.
  induction l as [|b l IH] using rev_ind; [reflexivity|].
  rewrite be_value_snoc, length_app, toHex_app, toHex_singleton. cbn [length].
  replace (2 * (length l + 1))%nat with (S (S (2 * length l))) by lia.
  cbn [hexOfWidth]. pose proof (proj2 (byte_hex_split b)) as Hb.
  replace ((256 * be_value l + Byte.to_N b) mod 16) with (Byte.to_N b mod 16)
    by nlia.
  replace ((256 * be_value l + Byte.to_N b) / 16 mod 16) with (Byte.to_N b / 16)
    by nlia.
  replace ((256 * be_value l + Byte.to_N b) / 16 / 16) with (be_value l)
    by nlia.
  by rewrite IH, append_assoc.
Qed.

Lemma hexOfWidth_length w n : String.length (hexOfWidth w n) = w.
Proof.
  revert n. induction w as [|w IH]; intros n; [reflexivity|].
  cbn [hexOfWidth]. rewrite length_append, IH. cbn. lia.
Qed.

Lemma hexOfWidth_digits w n :
  string_forall isHexDigit (hexOfWidth w n) = true.
Proof.
  revert n. induction w as [|w IH]; intros n; [reflexivity|].
  cbn [hexOfWidth]. rewrite string_forall_append, IH. cbn [string_forall].
  by rewrite hexDigit_isHexDigit.
Qed.

Lemma hexOfWidth_zero w : hexOfWidth w 0 = zeros w.
Proof.
  induction w as [|w IH]; [reflexivity|].
  cbn [hexOfWidth]. change (0 / 16) with 0. rewrite IH.
  change (hexDigit (0 mod 16)) with "0"%char. unfold zeros.
  clear IH. induction w as [|w IH]; [reflexivity|].
  cbn [repeat string_of_list_ascii]. by rewrite append_cons, IH.
Qed.

(** *** [toString(16)] padded on the left *)

Lemma padStart_toString16_aux fuel : ∀ w n acc,
  (1 ≤ w)%nat → n < 16 ^ N.of_nat w → n < 16 ^ N.of_nat fuel →
  padStart (w + String.length acc) "0"%char (toString16_aux fuel n acc)
    = String.append (hexOfWidth w n) acc.
Proof.
  induction fuel as [|fuel IH]; intros w n acc Hw Hn Hf.
  - assert (n = 0) as -> by (cbn in Hf; lia).
    cbn [toString16_aux]. rewrite padStart_zeros, hexOfWidth_zero.
    by replace (w + String.length acc - String.length acc)%nat with w by lia.
  - cbn [toString16_aux]. destruct w as [|w]; [lia|]. cbn [hexOfWidth].
    rewrite append_assoc, append_cons.
    change (String.append EmptyString acc) with acc.
    destruct (N.eqb_spec (n / 16) 0) as [Hz | Hnz].
    + rewrite Hz, hexOfWidth_zero, padStart_zeros. cbn [String.length].
      by replace (S w + String.length acc - S (String.length acc))%nat
        with w by lia.
    + replace (N.of_nat (S w)) with (N.succ (N.of_nat w)) in Hn by lia.
      replace (N.of_nat (S fuel)) with (N.succ (N.of_nat fuel)) in Hf by lia.
      rewrite N.pow_succ_r' in Hn, Hf.
      assert (Hw1 : (1 ≤ w)%nat).
      { destruct w; [|lia]. cbn in Hn. nlia. }
      rewrite <- (IH w (n / 16) (String (hexDigit (n mod 16)) acc) Hw1);
        [|nlia..].
      cbn [String.length]. f_equal. lia.
Qed.

Lemma log2_fuel n : n < 16 ^ N.of_nat (S (N.to_nat (N.log2 n))).
Proof.
  destruct (N.eq_dec n 0) as [-> | Hn]; [reflexivity|].
  eapply N.lt_le_trans; [apply N.log2_spec; lia|].
  replace (N.of_nat (S (N.to_nat (N.log2 n)))) with (N.succ (N.log2 n)) by lia.
  change 16 with (2 ^ 4). rewrite <- N.pow_mul_r.
  apply N.pow_le_mono_r; lia.
Qed.

Lemma padStart_toString16 w n :
  (1 ≤ w)%nat → n < 16 ^ N.of_nat w →
  padStart w "0"%char (toString16 n) = hexOfWidth w n.
Proof.
  intros Hw Hn. unfold toString16.
  pose proof (padStart_toString16_aux _ w n EmptyString Hw Hn (log2_fuel n)) as H.
  cbn [String.length] in H. rewrite Nat.add_0_r in H. rewrite H.
  apply CipherFacts.append_empty_r.
Qed.

Lemma toString16_aux_digits fuel : ∀ n acc,
  string_forall isHexDigit acc = true →
  string_forall isHexDigit (toString16_aux fuel n acc) = true.
Proof.
  induction fuel as [|fuel IH]; intros n acc Hacc; [done|].
  cbn [toString16_aux].
  assert (Hacc' : string_forall isHexDigit
                    (String (hexDigit (n mod 16)) acc) = true).
  { cbn [string_forall]. by rewrite hexDigit_isHexDigit. }
  destruct (n / 16 =? 0); [done|]. by apply IH.
Qed.

Lemma startsWith_0x_digits s :
  string_forall isHexDigit s = true → startsWith "0x" s = false.
Proof.
  intros Hs. destruct s as [|c1 [|c2 s]]; cbn [startsWith].
  - reflexivity.
  - apply andb_false_r.
  - cbn [string_forall] in Hs. apply andb_prop in Hs as [_ Hs].
    apply andb_prop in Hs as [Hs _].
    destruct (isHexDigit_plain c2 Hs) as (_ & _ & Hx).
    destruct (Ascii.eqb_spec "x" c2) as [<- | _]; [done|].
    cbn [andb]. apply andb_false_r.
Qed.

Lemma paddedHex_hexOfWidth w n :
  (1 ≤ w)%nat → n < 16 ^ N.of_nat w → paddedHex w n = hexOfWidth w n.
Proof.
  intros Hw Hn. unfold paddedHex. cbn zeta.
  rewrite startsWith_0x_digits by (by apply toString16_aux_digits).
  by apply padStart_toString16.
Qed.

(** *** Reading digits back *)

Lemma digitsAll_app r s t acc :
  digitsAll r (String.append s t) acc =
    match digitsAll r s acc with
    | Some a => digitsAll r t a
    | None => None
    end.
Proof.
  revert acc. induction s as [|c s IH]; intros acc; [reflexivity|].
  rewrite append_cons. cbn [digitsAll]. by destruct (digitOf r c).
Qed.

Lemma digitsAll_hexOfWidth w : ∀ n acc,
  n < 16 ^ N.of_nat w →
  digitsAll 16 (hexOfWidth w n) acc
    = Some (acc * 16 ^ Z.of_nat w + Z.of_N n)%Z.
Proof.
  induction w as [|w IH]; intros n acc Hn.
  - cbn in Hn. cbn [hexOfWidth digitsAll]. f_equal. lia.
  - replace (N.of_nat (S w)) with (N.succ (N.of_nat w)) in Hn by lia.
    rewrite N.pow_succ_r' in Hn.
    cbn [hexOfWidth]. rewrite digitsAll_app, IH by nlia.
    cbn [digitsAll]. rewrite hexDigit_value by nlia. f_equal.
    rewrite Nat2Z.inj_succ, Z.pow_succ_r by lia.
    set (p := (16 ^ Z.of_nat w)%Z). nlia.
Qed.

Lemma string_forall_impl (p q : ascii → bool) s :
  (∀ c, p c = true → q c = true) →
  string_forall p s = true → string_forall q s = true.
Proof.
  intros Hpq. induction s as [|c s IH]; [done|]. cbn [string_forall].
  intros [Hc Hs]%andb_prop. by rewrite (Hpq c Hc), IH.
Qed.

Lemma trimEnd_plain s :
  string_forall (λ c, negb (isWhiteSpace c)) s = true → trimEnd s = s.
Proof.
  induction s as [|c s IH]; [done|]. cbn [string_forall trimEnd].
  intros [Hc Hs]%andb_prop. rewrite (IH Hs).
  destruct s; [|reflexivity]. by destruct (isWhiteSpace c).
Qed.

Lemma BigInt_0x ds :
  string_forall isHexDigit ds = true → ds ≠ EmptyString →
  BigInt (String "0" (String "x" ds)) = digitsAll 16 ds 0%Z.
Proof.
  intros Hds Hne. unfold BigInt.
  change (trimStart (String "0" (String "x" ds)))
    with (String "0" (String "x" ds)).
  rewrite trimEnd_plain.
  - by destruct ds.
  - cbn [string_forall]. change (negb (isWhiteSpace "0")) with true.
    change (negb (isWhiteSpace "x")) with true. cbn [andb].
    revert Hds. apply string_forall_impl. intros c Hc.
    by destruct (isHexDigit_plain c Hc) as (-> & _).
Qed.

Lemma toHex_nonempty l : l ≠ [] → toHex l ≠ EmptyString.
Proof.
  intros Hl He.
  pose proof (hexOfWidth_length (2 * length l) (be_value l)) as Hlen.
  rewrite hexOfWidth_be, He in Hlen. destruct l; [done|]. cbn in Hlen. lia.
Qed.

(** *** Splitting text into pairs *)

Lemma pairs_length s :
  string_forall (λ c, negb (isLineTerminator c)) s = true →
  length (pairs s) = Nat.div2 (S (String.length s)).
Proof.
  enough (H : (string_forall (λ c, negb (isLineTerminator c)) s = true →
               length (pairs s) = Nat.div2 (S (String.length s))) ∧
              ∀ c, negb (isLineTerminator c) = true →
                   string_forall (λ c, negb (isLineTerminator c)) s = true →
                   length (pairs (String c s))
                     = Nat.div2 (S (String.length (String c s))))
    by apply H.
  induction s as [|a s [IH1 IH2]].
  - split; [done|]. intros c Hc _. cbn [pairs].
    apply negb_true_iff in Hc. by rewrite Hc.
  - split.
    + cbn [string_forall]. intros [Ha Hs]%andb_prop. by apply IH2.
    + intros c Hc. cbn [string_forall]. intros [Ha Hs]%andb_prop.
      cbn [pairs]. apply negb_true_iff in Hc, Ha. rewrite Hc, Ha.
      cbn [length String.length Nat.div2]. by rewrite (IH1 Hs).
Qed.

Lemma toHex_length l : String.length (toHex l) = (2 * length l)%nat.
Proof. rewrite <- hexOfWidth_be. apply hexOfWidth_length. Qed.

Lemma toHex_digits l : string_forall isHexDigit (toHex l) = true.
Proof. rewrite <- hexOfWidth_be. apply hexOfWidth_digits. Qed.


(** X11. Reading hexadecimal text checks nothing but emptiness.  Any text
    with at least one character and no line terminator is accepted, digits
    or not, and gives one byte per two characters, rounded up: an odd
    trailing character makes a byte of its own. *)
Theorem parseHex_lenient s :
  s ≠ EmptyString →
  string_forall (λ c, negb (isLineTerminator c)) s = true →
  ∃ l, parseHex s = Some l ∧ length l = Nat.div2 (S (String.length s)).
Proof.
  intros Hne Hs. pose proof (pairs_length s Hs) as Hlen.
  unfold parseHex, match_pairs.
  destruct (pairs s) as [|p ps] eqn:Hp.
  - destruct s; [done|]. cbn [length String.length Nat.div2] in Hlen.
    discriminate Hlen.
  - eexists. split; [reflexivity|]. by rewrite length_map.
Qed.

(** X12. The sender address after the authorized decryption.  For a
    decrypted value below [2^160], the text built for the address has
    exactly 40 characters, all hexadecimal digits, and denotes that value:
    read as a [BigInt] behind ["0x"] it is the value again. *)
Theorem senderHexOf_canonical n :
  n < 2 ^ 160 →
  String.length (senderHexOf n) = 40%nat ∧
  string_forall isHexDigit (senderHexOf n) = true ∧
  BigInt (String "0" (String "x" (senderHexOf n))) = Some (Z.of_N n).
Proof.
  intros Hn. unfold senderHexOf.
  rewrite paddedHex_hexOfWidth by (lia || exact Hn).
  split_and!.
  - apply hexOfWidth_length.
  - apply hexOfWidth_digits.
  - rewrite BigInt_0x.
    + rewrite digitsAll_hexOfWidth by exact Hn. f_equal; lia.
    + apply hexOfWidth_digits.
    + intros He. pose proof (hexOfWidth_length 40 n) as Hl.
      rewrite He in Hl. discriminate Hl.
Qed.

Lemma aesKeyHexOf_be key :
  length key = 32%nat → aesKeyHexOf (be_value key) = toHex key.
Proof.
  intros Hk. unfold aesKeyHexOf.
  pose proof (be_value_bound key) as Hb. rewrite Hk in Hb.
  rewrite paddedHex_hexOfWidth by (lia || exact Hb).
  rewrite <- (hexOfWidth_be key), Hk. reflexivity.
Qed.

(** X13. The key through the protected field.  For a 32-byte key, the text
    prepared for the commit reads as a [BigInt] below [2^256], the integer
    the bytes denote; and from that integer the decrypting side gets the
    same 32 bytes back, leading zero bytes included. *)
Theorem aes_key_transport key :
  length key = 32%nat →
  BigInt (keyHexOf key) = Some (Z.of_N (be_value key)) ∧
  be_value key < 2 ^ 256 ∧
  parseHex (aesKeyHexOf (be_value key)) = Some key.
Proof.
  intros Hk.
  assert (Hne : key ≠ []) by (intros ->; discriminate Hk).
  pose proof (be_value_bound key) as Hb. rewrite Hk in Hb.
  split_and!.
  - unfold keyHexOf. rewrite BigInt_0x.
    + rewrite <- (hexOfWidth_be key), digitsAll_hexOfWidth.
      * f_equal; lia.
      * rewrite Hk. exact Hb.
    + rewrite <- hexOfWidth_be. apply hexOfWidth_digits.
    + by apply toHex_nonempty.
  - exact Hb.
  - rewrite aesKeyHexOf_be by done. by apply CipherFacts.parseHex_toHex.
Qed.

Section WithPlatform.

Context {P : Platform} {L : PlatformLaws P}.


End WithPlatform.

(** *** Worked examples *)


Lemma parseHex_lenient_witness :
  "zz7"%string ≠ EmptyString ∧
  string_forall (λ c, negb (isLineTerminator c)) "zz7" = true ∧
  ∃ l, parseHex "zz7" = Some l ∧ length l = Nat.div2 (S (String.length "zz7")).
Proof.
  assert (H1 : "zz7"%string ≠ EmptyString) by discriminate.
  assert (H2 : string_forall (λ c, negb (isLineTerminator c)) "zz7" = true)
    by reflexivity.
  split_and!; [exact H1|exact H2|]. exact (parseHex_lenient "zz7" H1 H2).
Defined.

Lemma senderHexOf_canonical_witness :
  255 < 2 ^ 160 ∧
  String.length (senderHexOf 255) = 40%nat ∧
  string_forall isHexDigit (senderHexOf 255) = true ∧
  BigInt (String "0" (String "x" (senderHexOf 255))) = Some (Z.of_N 255).
Proof.
  assert (H : 255 < 2 ^ 160) by reflexivity.
  split; [exact H|]. exact (senderHexOf_canonical 255 H).
Defined.

Lemma aes_key_transport_witness :
  length low_key = 32%nat ∧
  BigInt (keyHexOf low_key) = Some (Z.of_N (be_value low_key)) ∧
  be_value low_key < 2 ^ 256 ∧
  parseHex (aesKeyHexOf (be_value low_key)) = Some low_key.
Proof.
  assert (H : length low_key = 32%nat) by reflexivity.
  split; [exact H|]. exact (aes_key_transport low_key H).
Defined.


End TransportFacts.

(** ** Properties of the command-line tasks *)

Module TasksFacts.
Import Ledger Cipher Transport Tasks.

(** X15. The key check of the [send] task and the key text of the
    browser.  For a byte sequence [key], the text the browser shows for it,
    with or without its ["0x"], passes the task's check exactly when the
    key has 32 bytes, and the task then works with the browser's text. *)
Theorem taskKeyHex_accepts_prepared key :
  (taskKeyHex (keyHexOf key) = Some (keyHexOf key) ↔ length key = 32%nat) ∧
  (taskKeyHex (toHex key) = Some (keyHexOf key) ↔ length key = 32%nat) ∧
  (length key ≠ 32%nat →
   taskKeyHex (keyHexOf key) = None ∧ taskKeyHex (toHex key) = None).
Proof.
  pose proof (TransportFacts.toHex_length key) as Hlen.
  pose proof (TransportFacts.toHex_digits key) as Hdig.
  assert (H1 : taskKeyHex (keyHexOf key) =
               if (length key =? 32)%nat then Some (keyHexOf key) else None).
  { unfold taskKeyHex, keyHexOf. cbn zeta.
    change (startsWith "0x" (String "0" (String "x" (toHex key)))) with true.
    cbn [String.length]. rewrite Hlen.
    destruct (Nat.eqb_spec (length key) 32) as [-> | Hne]; [reflexivity|].
    destruct (Nat.eqb_spec (S (S (2 * length key))) 66); [lia|reflexivity]. }
  assert (H2 : taskKeyHex (toHex key) =
               if (length key =? 32)%nat then Some (keyHexOf key) else None).
  { unfold taskKeyHex. cbn zeta.
    rewrite TransportFacts.startsWith_0x_digits by exact Hdig.
    cbn [String.length]. rewrite Hlen.
    destruct (Nat.eqb_spec (length key) 32) as [-> | Hne]; [reflexivity|].
    destruct (Nat.eqb_spec (S (S (2 * length key))) 66); [lia|reflexivity]. }
  rewrite H1, H2.
  destruct (Nat.eqb_spec (length key) 32) as [He | Hne]; split_and!;
    try (split; done); done.
Qed.

Section WithRuntime.

Context {rt : Runtime}.

(** X16. The message id the [send] task prints.  After a successful
    [sendMessage] and any further transactions, the id the task computes
    from [getTotalMessages] is the returned id plus the number of
    submissions that succeeded in between: it is the id of the task's own
    message only if nobody else submitted meanwhile. *)
Theorem taskMessageId_counts_later_sends env r cid es sp ek kp s id s' txs env' :
  transact s (mkTx env (CallSendMessage r cid es sp ek kp)) = (Ok (VUint id), s') →
  fst (taskMessageId env' (run s' txs))
    = Ok (id + Z.of_nat (successful_sends s' txs)) ∧
  fst (taskMessageId env' s') = Ok id.
Proof.
  intros (sender & key & _ & _ & _ & _ & _ & Hid & ->)%LedgerFacts.transact_send_Ok.
  simplify_eq.
  destruct (LedgerFacts.assigned_ids_from (stored env r cid sender key s) txs)
    as [_ Hcount].
  unfold taskMessageId, getTotalMessages, bind, gets, ret. cbn [fst].
  rewrite Hcount. cbn [messageCount stored]. split; f_equal; lia.
Qed.

End WithRuntime.

Lemma taskKeyHex_accepts_prepared_witness :
  length (repeat Byte.xff 16) ≠ 32%nat ∧
  taskKeyHex (keyHexOf (repeat Byte.xff 16)) = None ∧
  taskKeyHex (toHex (repeat Byte.xff 16)) = None.
Proof.
  assert (H : length (repeat Byte.xff 16) ≠ 32%nat) by discriminate.
  split; [exact H|].
  exact (proj2 (proj2 (taskKeyHex_accepts_prepared (repeat Byte.xff 16))) H).
Defined.

Lemma taskMessageId_counts_later_sends_witness :
  transact (rt := permissive) init
    (Scenario.send Scenario.alice Scenario.bob "locX" 1000)
    = (Ok (VUint 0), Scenario.sent_one) ∧
  fst (taskMessageId (Scenario.at_time Scenario.alice 1003)
         (run (rt := permissive) Scenario.sent_one
            [Scenario.send Scenario.carol Scenario.alice "locY" 1002]))
    = Ok (0 + Z.of_nat (successful_sends (rt := permissive) Scenario.sent_one
                          [Scenario.send Scenario.carol Scenario.alice "locY" 1002])).
Proof.
  split; [exact LedgerFacts.init_sends|].
  exact (proj1 (taskMessageId_counts_later_sends (rt := permissive)
                  _ _ _ _ _ _ _ _ _ _
                  [Scenario.send Scenario.carol Scenario.alice "locY" 1002]
                  (Scenario.at_time Scenario.alice 1003) LedgerFacts.init_sends)).
Defined.

End TasksFacts.

(** ** Deleted and absent messages *)

Module AbsenceFacts.
Import Ledger Journal.

Section WithRuntime.

Context {rt : Runtime}.

(** X17. Deletion cannot be undone for readers.  Once the recipient has
    deleted a created message, and whatever transactions follow,
    [getMessage] on its id fails with the state error for every caller, the
    recipient included. *)
Theorem deleted_stays_unreadable env i s v s' txs env' :
  i < messageCount s →
  transact s (mkTx env (CallDeleteMessage i)) = (Ok v, s') →
  fst (getMessage env' i (run s' txs)) = Fail (Revert "Message deleted") ∧
  failure_kind (fst (getMessage env' i (run s' txs))) = Some StateError.
Proof.
  intros Hi (_ & _ & ->)%JournalFacts.transact_delete_Ok.
  pose proof (LedgerFacts.run_frozen (deleted env i s) txs i Hi)
    as (_ & _ & _ & _ & _ & Hd).
  rewrite JournalFacts.deleted_lookup, decide_True in Hd by done.
  rewrite LedgerFacts.getMessage_unfold. cbn zeta. cbn [fst].
  by rewrite (Hd eq_refl).
Qed.

(** X18. Ids that were never created, for [deleteMessage] and
    [isRecipient].  In storage reached from deployment through signed
    transactions, and for an id at or beyond [messageCount]:
    [deleteMessage] fails with the authorization error for every caller but
    the zero address and changes nothing; called from the zero address it
    would succeed and mark the empty slot deleted; and [isRecipient]
    answers [true] to the zero address only. *)
Theorem deleteMessage_absent s env i :
  reachable signed s → messageCount s ≤ i →
  (msg_sender env ≠ zero_address →
     transact s (mkTx env (CallDeleteMessage i))
       = (Fail (Revert "Not authorized"), s)) ∧
  (msg_sender env = zero_address →
     fst (transact s (mkTx env (CallDeleteMessage i))) = Ok VUnit ∧
     isDeleted (messages (snd (transact s (mkTx env (CallDeleteMessage i)))) !!! i)
       = true) ∧
  fst (isRecipient env i s) = Ok (msg_sender env =? zero_address).
Proof.
  intros Hs Hi.
  assert (Hz : messages s !!! i = zeroMessage).
  { apply (LedgerFacts.reachable_blank_outside s Hs i). unfold created. lia. }
  rewrite LedgerFacts.transact_delete, Hz.
  unfold isRecipient, gets. cbn [fst]. rewrite Hz.
  unfold zeroMessage. cbn [recipient isDeleted].
  split_and!.
  - intros Hne.
    destruct (Z.eqb_spec zero_address (msg_sender env)); [congruence|done].
  - intros ->. cbn [fst snd Z.eqb zero_address].
    rewrite JournalFacts.deleted_lookup, decide_True by done. done.
  - by rewrite Z.eqb_sym.
Qed.

End WithRuntime.

Lemma deleted_stays_unreadable_witness :
  0 < messageCount Scenario.sent_one ∧
  transact (rt := permissive) Scenario.sent_one
    (Scenario.delete Scenario.bob 0 1001)
    = (Ok VUnit, Scenario.sent_and_deleted) ∧
  fst (getMessage (Scenario.at_time Scenario.bob 1003) 0
         (run (rt := permissive) Scenario.sent_and_deleted
            [Scenario.send Scenario.carol Scenario.alice "locY" 1002]))
    = Fail (Revert "Message deleted").
Proof.
  assert (H : 0 < messageCount Scenario.sent_one) by (vm_compute; reflexivity).
  split_and!; [exact H|exact JournalFacts.bob_deletes|].
  exact (proj1 (deleted_stays_unreadable (rt := permissive) _ _ _ _ _
                  [Scenario.send Scenario.carol Scenario.alice "locY" 1002]
                  (Scenario.at_time Scenario.bob 1003) H JournalFacts.bob_deletes)).
Defined.

Lemma deleteMessage_absent_witness :
  reachable (rt := permissive) signed after_three ∧
  messageCount after_three ≤ 2 ∧
  msg_sender (Scenario.at_time Scenario.carol 1004) ≠ zero_address ∧
  transact (rt := permissive) after_three
    (mkTx (Scenario.at_time Scenario.carol 1004) (CallDeleteMessage 2))
    = (Fail (Revert "Not authorized"), after_three).
Proof.
  assert (H : messageCount after_three ≤ 2) by (vm_compute; discriminate).
  assert (Hc : msg_sender (Scenario.at_time Scenario.carol 1004) ≠ zero_address)
    by (vm_compute; discriminate).
  split_and!; [exact JournalFacts.after_three_reachable|exact H|exact Hc|].
  exact (proj1 (deleteMessage_absent (rt := permissive) after_three
                  (Scenario.at_time Scenario.carol 1004) 2
                  JournalFacts.after_three_reachable H) Hc).
Defined.

End AbsenceFacts.
